(** * A shallow embedding of the hierarchical router (router.js)

    The development follows the single source file of the routing engine:
    the [Router] class with its [RootRouter] and [ChildRouter] subclasses and
    the helpers [forEach], [mapObjAsync], [mapObj] and [boolToPromise].

    - Router objects live in a store ([heap]) and are referred to by
      location, so that object identity, the [parent] back-reference and the
      memoised [children] map are modelled as the code has them.
    - [Grammar], [Pipeline] and the view handles are imported collaborators;
      they are taken as interfaces (type classes), and every call the router
      makes to [Grammar] or [Pipeline] is recorded in a call log.
    - A promise produced by one of the tree walks is denoted by the logical
      time at which it settles together with its outcome; a promise whose
      callbacks write router fields ([navigate]) is split into the part that
      runs synchronously and the part that runs on settlement.
    - The objects [ports], [children] and [viewports] are plain JS objects:
      their own keys are kept as a finite map (an association list for
      [viewports]), and a read [obj[key]] that finds no own key goes on to
      [Object.prototype] ([js_get]).  [Object.prototype] is taken as the
      language defines it ([object_prototype_keys]).
    - The order in which [Object.keys] enumerates [ports] and [children] is
      not modelled: the walks take the keys in the order of the finite map,
      and the statements about them speak of which calls are made and when,
      not of their order within one loop.
    - An instruction is a tree: no instruction object sits under two
      parents. *)

From stdpp Require Import gmap strings list fin_maps.

Set Warnings "-register-all".
Open Scope string_scope.
Open Scope list_scope.
Open Scope nat_scope.

(** ** JavaScript values and promise outcomes *)

Inductive JsVal :=
| VUndefined
| VNull
| VBool (b : bool)
| VNum (n : Z)
| VStr (s : string)
| VObj (id : nat)
| VArray (elems : list JsVal).

(** Truthiness as used by [value ? a : b], [!x] and [a || b]. *)
Definition truthy (v : JsVal) : bool :=
  match v with
  | VUndefined | VNull => false
  | VBool b => b
  | VNum n => negb (Z.eqb n 0)
  | VStr s => negb (String.eqb s "")
  | VObj _ | VArray _ => true
  end.

Inductive Outcome :=
| Fulfilled (v : JsVal)
| Rejected (reason : JsVal).

(** [typeof v]. *)
Definition js_typeof (v : JsVal) : string :=
  match v with
  | VUndefined => "undefined"
  | VNull | VObj _ | VArray _ => "object"
  | VBool _ => "boolean"
  | VNum _ => "number"
  | VStr _ => "string"
  end.

(** ** Property reads on plain objects *)

(** The property names of [Object.prototype] (ECMAScript 2015 with its
    Annex B), which every object made by [{}] inherits.  Each of them holds
    a function, except [__proto__], an accessor whose getter hands back
    [Object.prototype] itself: all of them are truthy. *)
Definition object_prototype_keys : list string :=
  ["constructor"; "toString"; "toLocaleString"; "valueOf"; "hasOwnProperty";
   "isPrototypeOf"; "propertyIsEnumerable"; "__proto__";
   "__defineGetter__"; "__defineSetter__";
   "__lookupGetter__"; "__lookupSetter__"].

Definition inherited (key : string) : bool :=
  bool_decide (key ∈ object_prototype_keys).

(** What a read [obj[key]] hands back: the value stored under an own key,
    the member of [Object.prototype] of that name, or [undefined]. *)
Inductive Slot (A : Type) :=
| Stored (a : A)
| Inherited (key : string)
| Undefined.

Arguments Stored {A} a.
Arguments Inherited {A} key.
Arguments Undefined {A}.

(** [obj[key]], given the own property of that name if there is one. *)
Definition js_get {A : Type} (own : option A) (key : string) : Slot A :=
  match own with
  | Some a => Stored a
  | None => if inherited key then Inherited key else Undefined
  end.

(** The value kept under an own key, if this is one. *)
Definition stored {A : Type} (s : Slot A) : option A :=
  match s with
  | Stored a => Some a
  | _ => None
  end.

(** [obj[key] = value] on an object whose prototype is [Object.prototype]:
    an own property is written, except under [__proto__], where the
    inherited setter runs and no own key is made.  (The setter makes the
    value the prototype of [obj]; the values written here are view handles,
    which are taken to have no setter and no read-only property of their
    own that would catch a later write.) *)
Definition js_set `{Insert string A M} (key : string) (a : A) (obj : M) : M :=
  if String.eqb key "__proto__" then obj else <[key := a]> obj.

(** ** Data model *)

Abbreviation loc := nat (only parsing).    (* identity of a Router object *)
Abbreviation gref := nat (only parsing).   (* identity of a Grammar object *)
Abbreviation pref := nat (only parsing).   (* identity of a Pipeline object *)
Abbreviation View := nat (only parsing).   (* an opaque view handle *)

(** An instruction as produced by [Grammar.recognize].  [viewports] is a JS
    object; its own keys are kept as an association list in key enumeration
    order, which is the order [Object.keys] walks it in.  [router_val] is
    the content of the field [instruction.router]: a Router object, what
    [childRouter] handed back in its place, or [undefined]. *)
Inductive Instruction := mkInstruction {
  component : string;
  viewports : list (string * Instruction);
  router_val : Slot loc;
  canonicalUrl : string
}.

(** The Router object in [instruction.router], when the field holds one:
    this is what a method call [instruction.router.m(...)] needs; on anything
    else the call throws. *)
Definition router (i : Instruction) : option loc := stored (router_val i).

Arguments router !i /.

(** The own property [k] of [instruction.viewports]. *)
Fixpoint viewport_own (vs : list (string * Instruction)) (k : string)
  : option Instruction :=
  match vs with
  | [] => None
  | (k', i) :: vs' => if String.eqb k' k then Some i else viewport_own vs' k
  end.

(** [instruction.viewports[name]]. *)
Definition viewport_get (vs : list (string * Instruction)) (k : string)
  : Slot Instruction :=
  js_get (viewport_own vs k) k.

(** No component below [i] is named like a member of [Object.prototype]:
    every [childRouter(childInstruction.component)] of the tree builder then
    finds or builds a Router object. *)
Fixpoint plain_components (i : Instruction) : bool :=
  forallb (λ kc, negb (inherited (component kc.2)) && plain_components kc.2)
          (viewports i).

(** The fields of a Router object.  The three URL fields are never
    initialised by the constructor, hence [None] (undefined) at first. *)
Record Router := mkRouter {
  name : string;
  parent : option loc;
  navigating : bool;
  ports : gmap string View;
  children : gmap string loc;
  registry : gref;
  pipeline : pref;
  lastNavigatedUrl : option string;
  previousUrl : option string;
  lastNavigationAttempt : option string
}.

Definition set_navigating (b : bool) (r : Router) : Router :=
  mkRouter (name r) (parent r) b (ports r) (children r) (registry r)
           (pipeline r) (lastNavigatedUrl r) (previousUrl r)
           (lastNavigationAttempt r).

Definition set_ports (p : gmap string View) (r : Router) : Router :=
  mkRouter (name r) (parent r) (navigating r) p (children r) (registry r)
           (pipeline r) (lastNavigatedUrl r) (previousUrl r)
           (lastNavigationAttempt r).

Definition set_children (c : gmap string loc) (r : Router) : Router :=
  mkRouter (name r) (parent r) (navigating r) (ports r) c (registry r)
           (pipeline r) (lastNavigatedUrl r) (previousUrl r)
           (lastNavigationAttempt r).

Definition set_lastNavigatedUrl (u : option string) (r : Router) : Router :=
  mkRouter (name r) (parent r) (navigating r) (ports r) (children r)
           (registry r) (pipeline r) u (previousUrl r)
           (lastNavigationAttempt r).

(** [instruction.router = value]. *)
Definition set_router_val (v : Slot loc) (i : Instruction) : Instruction :=
  mkInstruction (component i) (viewports i) v (canonicalUrl i).

(** [instruction.router = l] for a Router object [l] ([None]: the field is
    left undefined). *)
Definition set_router (l : option loc) (i : Instruction) : Instruction :=
  set_router_val (from_option Stored Undefined l) i.

(** ** The imported collaborators *)

(** [Grammar]: [recognize(url)] yields an instruction or null,
    [config(name, mapping)] changes the route table, [generate(name, params)]
    yields a URL ([None] when it throws). *)
Class Grammar (G : Type) := {
  Mapping : Type;
  Params : Type;
  g_recognize : G → string → option Instruction;
  g_config : G → string → Mapping → G;
  g_generate : G → string → Params → option string
}.

(** What a view capability hands back: a plain value, or a promise that
    settles after [d] ticks with an outcome ([None]: it never settles). *)
Inductive Reply :=
| RValue (v : JsVal)
| RPromise (p : option (nat * Outcome)).

(** A view handle's capability set; the third argument is the time of the
    call. *)
Class ViewLayer := {
  activate : View → Slot Instruction → nat → Reply;
  canDeactivate : View → Slot Instruction → nat → Reply
}.

Section Engine.
Context {G : Type} `{Gr : Grammar G}.

(** Calls made to the collaborators, most recent first. *)
Inductive Call :=
| CRecognize (g : gref) (url : string)
| CConfig (g : gref) (rname : string) (m : Mapping)
| CGenerate (g : gref) (rname : string) (p : Params)
| CProcess (p : pref) (i : Instruction).

Record World := mkWorld {
  heap : gmap loc Router;
  next_loc : loc;
  grammars : gref → G;
  log : list Call
}.

Definition set_heap (h : gmap loc Router) (w : World) : World :=
  mkWorld h (next_loc w) (grammars w) (log w).

Definition add_call (c : Call) (w : World) : World :=
  mkWorld (heap w) (next_loc w) (grammars w) (c :: log w).

(** Write one field of the object at [this]. *)
Definition update (this : loc) (f : Router → Router) (w : World) : World :=
  match heap w !! this with
  | Some r => set_heap (<[this := f r]> (heap w)) w
  | None => w
  end.

(** What [navigate] hands back: a promise that is already settled, or the
    chain hanging off [pipeline.process(instruction)]. *)
Inductive NavPromise :=
| Settled (o : Outcome)
| AwaitsPipeline (p : pref) (i : Instruction).

(** *** Construction *)

(** [new Router(grammar, pipeline, parent, name)]: allocates the object. *)
Definition newRouter (w : World) (grammar : gref) (pl : pref)
    (par : option loc) (nm : string) : World * loc :=
  let l := next_loc w in
  (mkWorld (<[l := mkRouter nm par false ∅ ∅ grammar pl None None None]>
              (heap w))
           (S l) (grammars w) (log w), l).

(** [new RootRouter(grammar, pipeline)]. *)
Definition newRootRouter (w : World) (grammar : gref) (pl : pref)
  : World * loc :=
  newRouter w grammar pl None "/".

(** [new ChildRouter(parent, name)]. *)
Definition newChildRouter (w : World) (par : loc) (p : Router) (nm : string)
  : World * loc :=
  newRouter w (registry p) (pipeline p) (Some par) nm.

(** The default parameter [name = 'default']. *)
Definition default_name (nm : option string) : string :=
  match nm with Some s => s | None => "default" end.

(** [childRouter(name = 'default')]: the test [!this.children[name]] and
    the value handed back are reads through the prototype chain, so that for
    a name of [Object.prototype] nothing is built and the inherited member
    is what the caller gets.  All functions on a receiver return [None] only
    when [this] is not an allocated object. *)
Definition childRouter (w : World) (this : loc) (nm : option string)
  : option (World * Slot loc) :=
  r ← heap w !! this;
  match js_get (children r !! default_name nm) (default_name nm) with
  | Undefined =>
      (* the name is no key of [Object.prototype] here, [__proto__] least of
         all: the assignment makes an own property *)
      let '(w1, c) := newChildRouter w this r (default_name nm) in
      Some (update this (set_children (<[default_name nm := c]> (children r)))
                   w1, Stored c)
  | found => Some (w, found)
  end.

(** *** Navigation *)

Definition _startNavigating (w : World) (this : loc) : World :=
  update this (set_navigating true) w.

Definition _finishNavigating (w : World) (this : loc) : World :=
  update this (set_navigating false) w.

(** [recognize(url)] delegates to the registry. *)
Definition recognize (w : World) (r : Router) (url : string)
  : World * option Instruction :=
  (add_call (CRecognize (registry r) url) w,
   g_recognize (grammars w (registry r)) url).

(** The synchronous part of [navigate(url)]. *)
Definition navigate (w : World) (this : loc) (url : string)
  : option (World * NavPromise) :=
  r ← heap w !! this;
  if navigating r || bool_decide (lastNavigatedUrl r = Some url)
  then Some (w, Settled (Fulfilled VUndefined))
  else
    let '(w1, oi) := recognize w r url in
    match oi with
    | None => Some (w1, Settled (Rejected VUndefined))
    | Some instruction =>
        let w2 := _startNavigating w1 this in
        let instruction' := set_router (Some this) instruction in
        Some (add_call (CProcess (pipeline r) instruction') w2,
              AwaitsPipeline (pipeline r) instruction')
    end.

(** The two [then] callbacks of [navigate], run when the promise of
    [pipeline.process(instruction)] settles with [o] in world [w].  Both
    are fulfilment handlers only: a rejection passes through them. *)
Definition navigate_settle (w : World) (this : loc)
    (instruction : Instruction) (o : Outcome) : option (World * Outcome) :=
  _ ← heap w !! this;
  match o with
  | Fulfilled _ =>
      let w1 := _finishNavigating w this in
      let w2 := update this
                  (set_lastNavigatedUrl (Some (canonicalUrl instruction))) w1 in
      Some (w2, Fulfilled (VStr (canonicalUrl instruction)))
  | Rejected reason => Some (w, Rejected reason)
  end.

(** [a || b] on two possibly undefined strings. *)
Definition truthy_str (s : option string) : bool :=
  match s with
  | Some s => truthy (VStr s)
  | None => false
  end.

Definition js_or (a b : option string) : option string :=
  if truthy_str a then a else b.

(** [renavigate()]. *)
Definition renavigate (w : World) (this : loc)
  : option (World * NavPromise) :=
  r ← heap w !! this;
  let renavigateDestination :=
    js_or (previousUrl r) (lastNavigationAttempt r) in
  match renavigateDestination with
  | Some dest =>
      if negb (navigating r) && truthy_str (Some dest)
      then navigate w this dest
      else Some (w, Settled (Fulfilled VUndefined))
  | None => Some (w, Settled (Fulfilled VUndefined))
  end.

(** [registerViewport(view, name = 'default')]. *)
Definition registerViewport (w : World) (this : loc) (view : View)
    (nm : option string) : option (World * NavPromise) :=
  r ← heap w !! this;
  renavigate
    (update this (set_ports (js_set (default_name nm) view (ports r))) w) this.

(** [config(mapping)]. *)
Definition config (w : World) (this : loc) (mapping : Mapping)
  : option (World * NavPromise) :=
  r ← heap w !! this;
  let g := registry r in
  let w1 :=
    mkWorld (heap w) (next_loc w)
            (λ g', if decide (g' = g)
                   then g_config (grammars w g) (name r) mapping
                   else grammars w g')
            (CConfig g (name r) mapping :: log w) in
  renavigate w1 this.

(** [generate(name, params)]. *)
Definition generate (w : World) (this : loc) (nm : string) (ps : Params)
  : option (World * option string) :=
  r ← heap w !! this;
  Some (add_call (CGenerate (registry r) nm ps) w,
        g_generate (grammars w (registry r)) nm ps).

(** *** Router tree builder *)

(** The first [forEach] of [traverseInstructionSync] with the callback of
    [makeDescendantRouters]:
    [childInstruction.router =
       instruction.router.childRouter(childInstruction.component)]
    for each viewport in turn.  [rt] is [instruction.router]; unless it is
    a Router object the call throws ([None]). *)
Fixpoint assignRouters (w : World) (rt : Slot loc)
    (vs : list (string * Instruction)) : option (World * list (Slot loc)) :=
  match vs with
  | [] => Some (w, [])
  | (_, childInstruction) :: vs' =>
      this ← stored rt;
      '(w1, c) ← childRouter w this (Some (component childInstruction));
      '(w2, cs) ← assignRouters w1 rt vs';
      Some (w2, c :: cs)
  end.

(** The second [forEach] of [traverseInstructionSync]: the walk goes on in
    each child instruction, which by now holds the value [c] written by
    the first loop. *)
Definition descend
    (walk : World → Slot loc → Instruction → option (World * Instruction))
  : World → list (string * Instruction) → list (Slot loc) →
    option (World * list (string * Instruction)) :=
  fix second w vs cs :=
    match vs, cs with
    | (vp, childInstruction) :: vs', c :: cs' =>
        '(w', child') ← walk w c childInstruction;
        '(w'', rest) ← second w' vs' cs';
        Some (w'', (vp, child') :: rest)
    | _, _ => Some (w, [])
    end.

(** [traverseInstructionSync(instruction, fn)] for that callback.  The
    instruction objects are written in place by the first loop; here the
    router just written to an instruction travels next to it ([rt] is the
    current content of [instruction.router]) and the walk hands back the
    instruction tree as it stands afterwards. *)
Fixpoint traverseInstructionSync (w : World) (rt : Slot loc)
    (instruction : Instruction) {struct instruction}
  : option (World * Instruction) :=
  '(w1, cs) ← assignRouters w rt (viewports instruction);
  '(w2, vs) ← descend traverseInstructionSync w1 (viewports instruction) cs;
  Some (w2, mkInstruction (component instruction) vs rt
                          (canonicalUrl instruction)).

(** [makeDescendantRouters(instruction)]: a plain function, it returns no
    promise.  [None]: the walk throws. *)
Definition makeDescendantRouters (w : World) (instruction : Instruction)
  : option (World * Instruction) :=
  traverseInstructionSync w (router_val instruction) instruction.

(** *** Histories of calls

    What a host application can do to the router objects, one call at a
    time.  [OpSettle] is the settlement of a promise handed out by
    [pipeline.process].  A call that throws counts for nothing: the only
    writes made before a throw are those of [childRouter] calls inside
    [makeDescendantRouters], and a history can make these calls on their
    own. *)
Inductive Op :=
| OpNewRootRouter (g : gref) (p : pref)
| OpChildRouter (this : loc) (nm : option string)
| OpRegisterViewport (this : loc) (view : View) (nm : option string)
| OpConfig (this : loc) (m : Mapping)
| OpNavigate (this : loc) (url : string)
| OpSettle (this : loc) (i : Instruction) (o : Outcome)
| OpRenavigate (this : loc)
| OpGenerate (this : loc) (nm : string) (ps : Params)
| OpMakeDescendantRouters (i : Instruction).

Definition after {A : Type} (w : World) (res : option (World * A)) : World :=
  match res with
  | Some (w', _) => w'
  | None => w
  end.

Definition step (w : World) (op : Op) : World :=
  match op with
  | OpNewRootRouter g p => (newRootRouter w g p).1
  | OpChildRouter this nm => after w (childRouter w this nm)
  | OpRegisterViewport this view nm => after w (registerViewport w this view nm)
  | OpConfig this m => after w (config w this m)
  | OpNavigate this url => after w (navigate w this url)
  | OpSettle this i o => after w (navigate_settle w this i o)
  | OpRenavigate this => after w (renavigate w this)
  | OpGenerate this nm ps => after w (generate w this nm ps)
  | OpMakeDescendantRouters i => after w (makeDescendantRouters w i)
  end.

(** The world before any router exists, over the grammar objects [gs]. *)
Definition empty_world (gs : gref → G) : World := mkWorld ∅ 0 gs [].

Definition run (w : World) (ops : list Op) : World := foldl step w ops.

End Engine.

(** ** Promises in logical time

    A promise is denoted by the time at which it settles and its outcome;
    [None] is a promise that stays pending for ever. *)

Definition Promise := option (nat * Outcome).

(** [Promise.resolve(x)] at time [now], as [Promise.all] applies it to each
    element: a plain value is fulfilled at once, a promise is itself. *)
Definition promise_of_reply (now : nat) (r : Reply) : Promise :=
  match r with
  | RValue v => Some (now, Fulfilled v)
  | RPromise p => (λ '(d, o), (now + d, o)) <$> p
  end.

(** [boolToPromise(value)]:
    [value ? Promise.resolve(value) : Promise.reject()].  A promise object is
    truthy whatever it settles to. *)
Definition boolToPromise (now : nat) (value : Reply) : Promise :=
  match value with
  | RValue v =>
      if truthy v then Some (now, Fulfilled v)
      else Some (now, Rejected VUndefined)
  | RPromise _ => promise_of_reply now value
  end.

(** The earliest rejection among [ps] (the first in the list on a tie). *)
Fixpoint first_rejection (ps : list Promise) : option (nat * JsVal) :=
  match ps with
  | [] => None
  | p :: ps' =>
      match p, first_rejection ps' with
      | Some (t, Rejected r), Some (t', r') =>
          if t' <? t then Some (t', r') else Some (t, r)
      | Some (t, Rejected r), None => Some (t, r)
      | _, rest => rest
      end
  end.

Definition fulfilment (p : Promise) : option (nat * JsVal) :=
  match p with
  | Some (t, Fulfilled v) => Some (t, v)
  | _ => None
  end.

(** [Promise.all(ps)] called at [now]: rejected as soon as one element is,
    fulfilled once every element is, pending otherwise. *)
Definition promise_all (now : nat) (ps : list Promise) : Promise :=
  match first_rejection ps with
  | Some (t, r) => Some (t, Rejected r)
  | None =>
      tvs ← mapM fulfilment ps;
      Some (max_list (now :: tvs.*1), Fulfilled (VArray tvs.*2))
  end.

(** The reason of a [TypeError] raised by a method call on a value that has
    no such method ([undefined], or a member of [Object.prototype]). *)
Definition TypeError : JsVal := VStr "TypeError".

(** ** The asynchronous tree walks *)

Inductive Capability := Activate | CanDeactivate.

(** One call of a view capability: which walk level issued it ([ev_path] is
    the chain of keys from the root of the walk), on which router and port,
    with which argument, when, and the promise the walk waits on. *)
Record Event := mkEvent {
  ev_cap : Capability;
  ev_path : list string;
  ev_router : loc;
  ev_port : string;
  ev_view : View;
  ev_arg : Slot Instruction;
  ev_issued : nat;
  ev_promise : Promise
}.

(** [mapObj] over the sub-walks started by a [then] callback: the calls are
    made one after the other; a callback that throws ([None]) ends the loop,
    the calls already made stay made. *)
Definition spawn {X : Type} (f : string → X → option (list Event * Promise))
  : list (string * X) → list Event * option (list Promise) :=
  fix go vs :=
    match vs with
    | [] => ([], Some [])
    | (k, x) :: vs' =>
        match f k x with
        | None => ([], None)
        | Some (e1, p1) =>
            let '(e2, ps) := go vs' in (e1 ++ e2, (p1 ::.) <$> ps)
        end
    end.

Definition spawned_all (t : nat) (ps : option (list Promise)) : Promise :=
  match ps with
  | Some ps => promise_all t ps
  | None => Some (t, Rejected TypeError)
  end.

Section Walks.
Context `{VL : ViewLayer}.

Definition ports_of (h : gmap loc Router) (this : loc) : gmap string View :=
  match h !! this with
  | Some r => ports r
  | None => ∅
  end.

Definition children_of (h : gmap loc Router) (this : loc) : gmap string loc :=
  match h !! this with
  | Some r => children r
  | None => ∅
  end.

(** What a walk callback [fn(port, name)] does at time [t]: the capability
    it invokes, the argument it passes and the promise it returns. *)
Definition PortFn :=
  View → string → nat → Capability * Slot Instruction * Promise.

(** [queryViewports(fn)] = [mapObjAsync(this.ports, fn)]: [fn] is called on
    every port in one synchronous loop, so all the calls are made at [now],
    and [Promise.all] waits on what they return. *)
Definition queryViewports (h : gmap loc Router) (fn : PortFn) (this : loc)
    (path : list string) (now : nat) : list Event * Promise :=
  let evs :=
    (λ '(nm, port),
       let '(cap, arg, p) := fn port nm now in
       mkEvent cap path this nm port arg now p) <$> map_to_list (ports_of h this) in
  (evs, promise_all now (ev_promise <$> evs)).

(** The callback of [activatePorts]:
    [(port, name) => port.activate(instruction.viewports[name])]. *)
Definition activate_fn (instruction : Instruction) : PortFn :=
  λ port nm t,
    let arg := viewport_get (viewports instruction) nm in
    (Activate, arg, promise_of_reply t (activate port arg t)).

(** [activatePorts(instruction)] called on [this] at time [now]. *)
Fixpoint activatePorts (h : gmap loc Router) (this : loc)
    (instruction : Instruction) (path : list string) (now : nat)
    {struct instruction} : list Event * Promise :=
  let '(evs, p) := queryViewports h (activate_fn instruction) this path now in
  match p with
  | Some (t, Fulfilled _) =>
      let '(evs', ps) :=
        spawn (λ vp child,
                 rc ← router child;
                 Some (activatePorts h rc child (path ++ [vp]) t))
              (viewports instruction) in
      (evs ++ evs', spawned_all t ps)
  | _ => (evs, p)
  end.

(** [traversePorts(fn)] called on [this] at time [now]; it walks the
    [children] of the live router objects.  [None]: out of fuel. *)
Fixpoint traversePorts (fuel : nat) (h : gmap loc Router) (fn : PortFn)
    (this : loc) (path : list string) (now : nat)
  : option (list Event * Promise) :=
  match fuel with
  | 0 => None
  | S fuel' =>
      let '(evs, p) := queryViewports h fn this path now in
      match p with
      | Some (t, Fulfilled _) =>
          subs ← mapM (λ '(nm, child),
                         traversePorts fuel' h fn child (path ++ [nm]) t)
                      (map_to_list (children_of h this));
          Some (evs ++ mjoin subs.*1, promise_all t subs.*2)
      | _ => Some (evs, p)
      end
  end.

(** The callback of [canDeactivatePorts]:
    [(port, name) =>
       boolToPromise(port.canDeactivate(instruction.viewports[name]))]. *)
Definition canDeactivate_fn (instruction : Instruction) : PortFn :=
  λ port nm t,
    let arg := viewport_get (viewports instruction) nm in
    (CanDeactivate, arg, boolToPromise t (canDeactivate port arg t)).

(** [canDeactivatePorts(instruction)]. *)
Definition canDeactivatePorts (fuel : nat) (h : gmap loc Router)
    (this : loc) (instruction : Instruction) (now : nat)
  : option (list Event * Promise) :=
  traversePorts fuel h (canDeactivate_fn instruction) this [] now.

End Walks.

(** ** A table-driven grammar and a latency-driven view layer

    Stand-ins for the collaborators in the worked examples: a grammar whose
    state is a route table from URLs to instructions, replaced as a whole by
    [config], and views that answer after a fixed number of ticks. *)

Definition RouteTable := list (string * Instruction).

Fixpoint table_recognize (t : RouteTable) (url : string) : option Instruction :=
  match t with
  | [] => None
  | (u, i) :: t' => if String.eqb u url then Some i else table_recognize t' url
  end.

#[export] Instance TableGrammar : Grammar RouteTable := {|
  Mapping := RouteTable;
  Params := unit;
  g_recognize := table_recognize;
  g_config := λ _ _ m, m;
  g_generate := λ _ _ _, None
|}.

Definition leaf (c url : string) : Instruction :=
  mkInstruction c [] Undefined url.

(** ** Invariants of the router store *)

Section Invariants.
Context {G : Type} `{Gr : Grammar G}.

(** Every allocated router satisfies [P]. *)
Definition all_routers (P : Router → Prop) (w : World) : Prop :=
  ∀ l r, heap w !! l = Some r → P r.

(** The store is a forest: locations below [next_loc] only, and every
    entry of a [children] map is a younger router that was built by
    [new ChildRouter(parent, name)] for that parent and key. *)
Definition tree_shaped (w : World) : Prop :=
  (∀ l r, heap w !! l = Some r → l < next_loc w) ∧
  (∀ l r nm c, heap w !! l = Some r → children r !! nm = Some c →
     l < c ∧ ∃ rc, heap w !! c = Some rc ∧ parent rc = Some l ∧
                   name rc = nm ∧ registry rc = registry r ∧
                   pipeline rc = pipeline r).

(** [r'] is [r] as far as the fields no method ever assigns go. *)
Definition same_identity (r r' : Router) : Prop :=
  name r' = name r ∧ parent r' = parent r ∧ registry r' = registry r ∧
  pipeline r' = pipeline r ∧ previousUrl r' = previousUrl r ∧
  lastNavigationAttempt r' = lastNavigationAttempt r.

(** [w'] is a later stage of [w]: routers stay, keep their identity fields
    and keep every child they have. *)
Definition grows (w w' : World) : Prop :=
  next_loc w ≤ next_loc w' ∧
  ∀ l r, heap w !! l = Some r →
    ∃ r', heap w' !! l = Some r' ∧ same_identity r r' ∧
          children r ⊆ children r'.

(** A property of worlds that every primitive write of the router code
    keeps. *)
Record closed (I : World → Prop) : Prop := {
  closed_navigating : ∀ w this b,
    I w → I (update this (set_navigating b) w);
  closed_ports : ∀ w this p,
    I w → I (update this (set_ports p) w);
  closed_lastNavigatedUrl : ∀ w this u,
    I w → I (update this (set_lastNavigatedUrl u) w);
  closed_collaborators : ∀ w gs cs,
    I w → I (mkWorld (heap w) (next_loc w) gs cs);
  closed_child : ∀ w this r nm,
    I w → heap w !! this = Some r → children r !! nm = None →
    I (update this (set_children (<[nm := next_loc w]> (children r)))
              (newChildRouter w this r nm).1);
  closed_root : ∀ w g p, I w → I (newRootRouter w g p).1
}.

(** [this.children[k]] is the router [c]. *)
Definition has_child (w : World) (this : loc) (k : string) (c : loc) : Prop :=
  ∃ r, heap w !! this = Some r ∧ children r !! k = Some c.

(** No URL to renavigate to has been recorded on [r]. *)
Definition no_renavigation_target (r : Router) : Prop :=
  previousUrl r = None ∧ lastNavigationAttempt r = None.

(** A field write that leaves the identity fields and the children
    alone. *)
Definition frame (f : Router → Router) : Prop :=
  ∀ r, same_identity r (f r) ∧ children (f r) = children r.

(** The instruction tree without its [router] annotations. *)
Fixpoint erase (i : Instruction) : Instruction :=
  mkInstruction (component i)
                (map (λ kc, (kc.1, erase kc.2)) (viewports i))
                Undefined (canonicalUrl i).

(** Every child instruction below [i] carries the router that
    [parent.router.childRouter(child.component)] returns, without that call
    having anything left to build. *)
Fixpoint routed (w : World) (i : Instruction) : Prop :=
  (fix all (vs : list (string * Instruction)) : Prop :=
     match vs with
     | [] => True
     | (_, child) :: vs' =>
         (∃ rp rc, router i = Some rp ∧ router child = Some rc ∧
                   childRouter w rp (Some (component child))
                   = Some (w, Stored rc))
         ∧ routed w child ∧ all vs'
     end) (viewports i).

(** What the walk below one instruction achieves. *)
Definition walk_spec (i : Instruction) : Prop :=
  ∀ w this, tree_shaped w → is_Some (heap w !! this) →
    plain_components i = true →
    ∃ w' i', traverseInstructionSync w (Stored this) i = Some (w', i')
             ∧ tree_shaped w' ∧ grows w w' ∧ router i' = Some this
             ∧ erase i' = erase i ∧ routed w' i'.

End Invariants.

(** ** Vocabulary of the walks *)

(** [q] lies strictly below [p] in the walked tree. *)
Definition below (p q : list string) : Prop :=
  ∃ k ks, q = p ++ k :: ks.

(** The keys of every [viewports] object are distinct, as in any JS
    object. *)
Fixpoint distinct_keys (i : Instruction) : Prop :=
  NoDup (viewports i).*1 ∧
  (fix all (vs : list (string * Instruction)) : Prop :=
     match vs with
     | [] => True
     | (_, child) :: vs' => distinct_keys child ∧ all vs'
     end) (viewports i).

(** The same, as a check that can be run. *)
Fixpoint distinct_keysb (i : Instruction) : bool :=
  bool_decide (NoDup (viewports i).*1)
  && forallb (λ kc, distinct_keysb kc.2) (viewports i).

(** The router reached from [this] along the [children] keys [path]. *)
Fixpoint router_at (h : gmap loc Router) (this : loc) (path : list string)
  : option loc :=
  match path with
  | [] => Some this
  | k :: path' =>
      r ← h !! this;
      c ← children r !! k;
      router_at h c path'
  end.


(** The level barrier of a walk: the calls of one level are issued
    together, and a call further down is issued only once every call on the
    way to it has been fulfilled. *)
Definition issued_together (evs : list Event) : Prop :=
  ∀ e1 e2, e1 ∈ evs → e2 ∈ evs → ev_path e1 = ev_path e2 →
           ev_issued e1 = ev_issued e2.

Definition ancestors_first (evs : list Event) : Prop :=
  ∀ e1 e2, e1 ∈ evs → e2 ∈ evs → below (ev_path e1) (ev_path e2) →
           ∃ t v, ev_promise e1 = Some (t, Fulfilled v) ∧ t ≤ ev_issued e2.

(** All of [evs] belongs to the walk started at [path] at time [now]. *)
Definition within (path : list string) (now : nat) (evs : list Event) : Prop :=
  ∀ e, e ∈ evs →
       (∃ ks, ev_path e = path ++ ks) ∧ now ≤ ev_issued e
       ∧ (ev_path e = path → ev_issued e = now).

Definition barrier (path : list string) (now : nat) (evs : list Event) : Prop :=
  within path now evs ∧ issued_together evs ∧ ancestors_first evs.

(** [evs] is what the sub-walks started at time [t] under the keys [keys]
    of the level [path] have issued. *)
Definition forest (path : list string) (t : nat) (keys : list string)
    (evs : list Event) : Prop :=
  (∀ e, e ∈ evs → ∃ k ks, k ∈ keys ∧ ev_path e = path ++ k :: ks
                          ∧ t ≤ ev_issued e)
  ∧ issued_together evs ∧ ancestors_first evs.

(** The ordering by depth alone: whatever is one level further down is
    issued no earlier. *)
Definition levels_in_order (evs : list Event) : Prop :=
  ∀ e1 e2, e1 ∈ evs → e2 ∈ evs →
           length (ev_path e2) = S (length (ev_path e1)) →
           ev_issued e1 ≤ ev_issued e2.


(** ** Worked example: a welcome page

    One root router (location 0) over a route table in which [/] redirects
    to [/welcome]. *)

Definition welcome : Instruction := leaf "welcome" "/welcome".

Definition app_routes : RouteTable := [("/", welcome); ("/welcome", welcome)].

Definition app_start :=
  run (empty_world (λ _ : gref, app_routes)) [OpNewRootRouter 0 0].

(** The instruction [navigate] hands to the pipeline. *)
Definition welcome_at_root : Instruction := set_router (Some 0) welcome.

(** [navigate('/')] has been called and its pipeline is still running. *)
Definition app_navigating :=
  run (empty_world (λ _ : gref, app_routes))
      [OpNewRootRouter 0 0; OpNavigate 0 "/"].

(** The pipeline's promise has been fulfilled. *)
Definition app_arrived :=
  run (empty_world (λ _ : gref, app_routes))
      [OpNewRootRouter 0 0; OpNavigate 0 "/";
       OpSettle 0 welcome_at_root (Fulfilled VUndefined)].

(** The route table has then been replaced by an empty one. *)
Definition app_reconfigured :=
  run (empty_world (λ _ : gref, app_routes))
      [OpNewRootRouter 0 0; OpNavigate 0 "/";
       OpSettle 0 welcome_at_root (Fulfilled VUndefined);
       OpConfig 0 []].

(** ** Worked example: a dashboard with two panes

    Views answer after as many ticks as their handle says; the handle 0
    refuses a deactivation with [false]. *)

#[export] Instance LatencyViews : ViewLayer := {|
  activate := λ view _ _, RPromise (Some (view, Fulfilled VUndefined));
  canDeactivate := λ view _ _,
    if view =? 0 then RValue (VBool false)
    else RPromise (Some (view, Fulfilled (VBool true)))
|}.

(** [/dashboard] shows [users] on the left, with a profile, its avatar and
    the avatar's image nested in it, and [posts] on the right, with its
    comments and their thread. *)
Definition dashboard : Instruction :=
  mkInstruction "dashboard"
    [("left",
      mkInstruction "users"
        [("detail",
          mkInstruction "profile"
            [("badge",
              mkInstruction "avatar" [("default", leaf "image" "/dashboard")]
                            Undefined "/dashboard")]
            Undefined "/dashboard")]
        Undefined "/dashboard");
     ("right",
      mkInstruction "posts"
        [("detail",
          mkInstruction "comments" [("default", leaf "thread" "/dashboard")]
                        Undefined "/dashboard")]
        Undefined "/dashboard")]
    Undefined "/dashboard".

Definition dash_routes : RouteTable := [("/dashboard", dashboard)].

Definition dashboard_at_root : Instruction := set_router (Some 0) dashboard.

(** The root router navigates to [/dashboard] and the routers below it are
    built: 1 for [users], 2 for [posts], 3 for [profile], 4 for [avatar],
    5 for [image], 6 for [comments] and 7 for [thread]. *)
Definition dash_setup : list Op :=
  [OpNewRootRouter 0 0;
   OpNavigate 0 "/dashboard";
   OpMakeDescendantRouters dashboard_at_root].

(** Every router that shows something then has its viewports registered.
    All views take one tick, except the one in the [posts] router, which
    takes ten. *)
Definition dash_ops : list Op :=
  dash_setup ++
  [OpRegisterViewport 0 1 (Some "left");
   OpRegisterViewport 0 1 (Some "right");
   OpRegisterViewport 1 1 (Some "detail");
   OpRegisterViewport 2 10 (Some "detail");
   OpRegisterViewport 3 1 (Some "badge");
   OpRegisterViewport 4 1 None;
   OpRegisterViewport 6 1 None].

Definition dash_built := run (empty_world (λ _ : gref, dash_routes)) dash_ops.

(** The instruction once [makeDescendantRouters] has run on it. *)
Definition dashboard_routed : Instruction :=
  match makeDescendantRouters
          (run (empty_world (λ _ : gref, dash_routes))
               [OpNewRootRouter 0 0; OpNavigate 0 "/dashboard"])
          dashboard_at_root with
  | Some (_, i) => i
  | None => dashboard_at_root
  end.

(** The calls [activatePorts(instruction)] makes from time 0 on. *)
Definition dash_events : list Event :=
  (activatePorts (heap dash_built) 0 dashboard_routed [] 0).1.

(** The same store with one more view in the [users] router, which refuses
    to be deactivated. *)
Definition dash_guarded_ops : list Op :=
  dash_ops ++ [OpRegisterViewport 1 0 (Some "guard")].

Definition dash_guarded :=
  run (empty_world (λ _ : gref, dash_routes)) dash_guarded_ops.

(** ** Worked example: a component called [toString]

    [/print] shows the component [toString] in the viewport [main], once
    with a viewport of its own and once without. *)
Definition print_nested : Instruction :=
  mkInstruction "app"
    [("main",
      mkInstruction "toString" [("default", leaf "page" "/print")]
                    Undefined "/print")]
    (Stored 0) "/print".

Definition print_flat : Instruction :=
  mkInstruction "app" [("main", leaf "toString" "/print")]
                (Stored 0) "/print".

(** ** Worked example: two sibling viewports

    [/users/posts] maps the viewport [left] to the component [users] and
    the viewport [right] to the component [posts]. *)
Definition siblings : Instruction :=
  mkInstruction "app"
    [("left", leaf "users" "/users/posts");
     ("right", leaf "posts" "/users/posts")]
    (Stored 0) "/users/posts".

Definition siblings_start :=
  run (empty_world (λ _ : gref, [("/users/posts", siblings)]))
      [OpNewRootRouter 0 0].

(** ** The generic instruction walk

    [traverseInstruction(instruction, fn)] with its callback [fn] as a
    parameter: what [fn(childInstruction, viewportName)] hands back when it
    is called at a given time. *)

(** One call of the callback: at which level of the walk, for which
    viewport and child instruction, when, and the promise
    [boolToPromise] makes of what it returned. *)
Record Visit := mkVisit {
  vi_path : list string;
  vi_name : string;
  vi_child : Instruction;
  vi_issued : nat;
  vi_promise : Promise
}.

(** [mapObj] over sub-walks that record calls of any kind. *)
Definition spawn_walks {E X : Type}
    (f : string → X → option (list E * Promise))
  : list (string * X) → list E * option (list Promise) :=
  fix go vs :=
    match vs with
    | [] => ([], Some [])
    | (k, x) :: vs' =>
        match f k x with
        | None => ([], None)
        | Some (e1, p1) =>
            let '(e2, ps) := go vs' in (e1 ++ e2, (p1 ::.) <$> ps)
        end
    end.

Section Traverse.
Variable fn : Instruction → string → nat → Reply.

(** The first [mapObjAsync] of [traverseInstruction]:
    [boolToPromise(fn(childInstruction, viewportName))] for every viewport
    of the instruction. *)
Definition visitViewports (instruction : Instruction) (path : list string)
    (now : nat) : list Visit * Promise :=
  let visits :=
    (λ '(vp, child),
       mkVisit path vp child now (boolToPromise now (fn child vp now)))
      <$> viewports instruction in
  (visits, promise_all now (vi_promise <$> visits)).

(** [traverseInstruction(instruction, fn)] on an instruction that is not
    null. *)
Fixpoint traverseInstructionFrom (instruction : Instruction)
    (path : list string) (now : nat) {struct instruction}
  : list Visit * Promise :=
  let '(visits, p) := visitViewports instruction path now in
  match p with
  | Some (t, Fulfilled _) =>
      let '(visits', ps) :=
        spawn_walks (λ vp child,
                       _ ← router child;
                       Some (traverseInstructionFrom child (path ++ [vp]) t))
                    (viewports instruction) in
      (visits ++ visits', spawned_all t ps)
  | _ => (visits, p)
  end.

(** [traverseInstruction(instruction, fn)]; [None] is a null or undefined
    instruction. *)
Definition traverseInstruction (instruction : option Instruction) (now : nat)
  : list Visit * Promise :=
  match instruction with
  | None => ([], Some (now, Fulfilled VUndefined))
  | Some i => traverseInstructionFrom i [] now
  end.

End Traverse.

(** ** Further vocabulary *)

(** The instructions below [i], at every depth. *)
Fixpoint descendants (i : Instruction) : list Instruction :=
  flat_map (λ kc, kc.2 :: descendants kc.2) (viewports i).

(** An answer that [Promise.all] counts as done: a plain value, or a promise
    that is fulfilled. *)
Definition fulfils (answer : Reply) : Prop :=
  match answer with
  | RValue _ => True
  | RPromise (Some (_, Fulfilled _)) => True
  | RPromise _ => False
  end.

(** An answer that [boolToPromise] lets pass: a truthy value, or a promise
    that is fulfilled, whatever it is fulfilled with. *)
Definition allows (answer : Reply) : Prop :=
  match answer with
  | RValue v => truthy v = true
  | RPromise (Some (_, Fulfilled _)) => True
  | RPromise _ => False
  end.

Section Linkage.
Context {G : Type} `{Gr : Grammar G}.

(** Every router is either a root, named [/], or sits in the [children] of
    its [parent] under its own [name]. *)
Definition linked (w : World) : Prop :=
  ∀ c rc, heap w !! c = Some rc →
    match parent rc with
    | None => name rc = "/"
    | Some p => has_child w p (name rc) c
    end.

End Linkage.

(** Views that answer every question with a promise of [false], one tick
    later. *)
Definition PromiseOfFalseViews : ViewLayer := {|
  activate := λ _ _ _, RPromise (Some (1, Fulfilled (VBool false)));
  canDeactivate := λ _ _ _, RPromise (Some (1, Fulfilled (VBool false)))
|}.

(** Views whose activation is refused by the handle 0 and never settles for
    the handle 99. *)
Definition MoodyViews : ViewLayer := {|
  activate := λ view _ _,
    if view =? 0 then RPromise (Some (1, Rejected (VStr "no")))
    else if view =? 99 then RPromise None
    else RPromise (Some (view, Fulfilled VUndefined));
  canDeactivate := λ _ _ _, RValue (VBool true)
|}.

(** The welcome page with a child router under the root, and the child
    navigating. *)
Definition app_nested :=
  run (empty_world (λ _ : gref, app_routes))
      [OpNewRootRouter 0 0; OpChildRouter 0 (Some "welcome")].

(** The welcome page with views registered under the names [constructor]
    and [__proto__]. *)
Definition app_odd_ports :=
  run (empty_world (λ _ : gref, app_routes))
      [OpNewRootRouter 0 0;
       OpRegisterViewport 0 1 (Some "constructor");
       OpRegisterViewport 0 2 (Some "__proto__")].

(** ** Facts about the navigation state machine *)

Section EngineFacts.
Context {G : Type} `{Gr : Grammar G}.
Implicit Types (w : World) (this : loc) (r : Router) (url : string).

Lemma update_lookup w this f r :
  heap w !! this = Some r →
  heap (update this f w) !! this = Some (f r).
Proof.
  intros H. unfold update. rewrite H. simpl. apply lookup_insert_eq.
Qed.

Lemma update_lookup_ne w this f l :
  l ≠ this → heap (update this f w) !! l = heap w !! l.
Proof.
  intros H. unfold update. destruct (heap w !! this); [|done].
  simpl. by apply lookup_insert_ne.
Qed.

Lemma update_log w this f : log (update this f w) = log w.
Proof. unfold update. by destruct (heap w !! this). Qed.

Lemma update_grammars w this f : grammars (update this f w) = grammars w.
Proof. unfold update. by destruct (heap w !! this). Qed.

Lemma update_next_loc w this f : next_loc (update this f w) = next_loc w.
Proof. unfold update. by destruct (heap w !! this). Qed.

(** The guard of [navigate]: nothing is called, nothing is written. *)
Lemma navigate_guard w this r url :
  heap w !! this = Some r →
  navigating r = true ∨ lastNavigatedUrl r = Some url →
  navigate w this url = Some (w, Settled (Fulfilled VUndefined)).
Proof.
  intros Hr Hg. unfold navigate. rewrite Hr. simpl.
  destruct Hg as [-> | Hu]; [done|].
  rewrite (bool_decide_eq_true_2 _ Hu). by rewrite orb_true_r.
Qed.

Lemma navigate_past_guard w this r url :
  heap w !! this = Some r →
  navigating r = false →
  lastNavigatedUrl r ≠ Some url →
  navigate w this url =
    match g_recognize (grammars w (registry r)) url with
    | None => Some (add_call (CRecognize (registry r) url) w,
                    Settled (Rejected VUndefined))
    | Some instruction =>
        Some (add_call (CProcess (pipeline r) (set_router (Some this) instruction))
                (_startNavigating (add_call (CRecognize (registry r) url) w) this),
              AwaitsPipeline (pipeline r) (set_router (Some this) instruction))
    end.
Proof.
  intros Hr Hn Hu. unfold navigate. rewrite Hr. simpl.
  rewrite Hn, (bool_decide_eq_false_2 _ Hu). simpl.
  by destruct (g_recognize _ _).
Qed.

(** A rejection of the pipeline's promise runs neither [then] callback. *)
Lemma navigate_settle_rejected w this r i reason :
  heap w !! this = Some r →
  navigate_settle w this i (Rejected reason) = Some (w, Rejected reason).
Proof. intros Hr. unfold navigate_settle. by rewrite Hr. Qed.

Lemma navigate_settle_fulfilled w this r i v :
  heap w !! this = Some r →
  ∃ w', navigate_settle w this i (Fulfilled v)
          = Some (w', Fulfilled (VStr (canonicalUrl i)))
        ∧ heap w' !! this
          = Some (set_lastNavigatedUrl (Some (canonicalUrl i))
                    (set_navigating false r))
        ∧ log w' = log w.
Proof.
  intros Hr. unfold navigate_settle. rewrite Hr. simpl.
  eexists. split; [done|]. split.
  - apply update_lookup. unfold _finishNavigating. by apply update_lookup.
  - unfold _finishNavigating. by rewrite !update_log.
Qed.

(** Once a navigation is in flight and its pipeline rejects, the flag
    stays set: every later [navigate] on that router is swallowed by the
    guard. *)
Lemma navigate_rejected_stuck w this r url i :
  heap w !! this = Some r →
  navigating r = false →
  lastNavigatedUrl r ≠ Some url →
  g_recognize (grammars w (registry r)) url = Some i →
  ∃ w1 i',
    navigate w this url = Some (w1, AwaitsPipeline (pipeline r) i')
    ∧ heap w1 !! this = Some (set_navigating true r)
    ∧ ∀ reason,
        navigate_settle w1 this i' (Rejected reason) = Some (w1, Rejected reason)
        ∧ ∀ url', navigate w1 this url' = Some (w1, Settled (Fulfilled VUndefined)).
Proof.
  intros Hr Hn Hu Hi.
  rewrite (navigate_past_guard _ _ _ _ Hr Hn Hu), Hi.
  eexists _, _. split; [done|].
  assert (heap (add_call (CProcess (pipeline r) (set_router (Some this) i))
            (_startNavigating (add_call (CRecognize (registry r) url) w) this))
          !! this = Some (set_navigating true r)) as Hh.
  { simpl. unfold _startNavigating. by apply update_lookup. }
  split; [done|]. intros reason. split.
  - by eapply navigate_settle_rejected.
  - intros url'. eapply navigate_guard; [done|]. by left.
Qed.

(** The three ways [childRouter] can go: the child is there, the name is
    one of [Object.prototype], or a child is built. *)
Lemma childRouter_cases w this nm w' c :
  childRouter w this nm = Some (w', c) →
  ∃ r, heap w !! this = Some r ∧
    ((∃ l, children r !! default_name nm = Some l ∧ c = Stored l ∧ w' = w)
     ∨ (children r !! default_name nm = None
        ∧ inherited (default_name nm) = true
        ∧ c = Inherited (default_name nm) ∧ w' = w)
     ∨ (children r !! default_name nm = None
        ∧ inherited (default_name nm) = false
        ∧ c = Stored (next_loc w)
        ∧ w' = update this
                 (set_children (<[default_name nm := next_loc w]> (children r)))
                 (newChildRouter w this r (default_name nm)).1)).
Proof.
  unfold childRouter. intros H.
  destruct (heap w !! this) as [r|] eqn:Hr; simpl in H; [|done].
  exists r. split; [done|]. unfold js_get in H.
  destruct (children r !! default_name nm) as [l|] eqn:Hc.
  - left. exists l. by simplify_eq.
  - right. destruct (inherited (default_name nm)) eqn:Hi; simplify_eq/=.
    + by left.
    + by right.
Qed.

End EngineFacts.

(** ** Facts about the store invariants *)

Lemma router_Stored i l : router i = Some l ↔ router_val i = Stored l.
Proof. unfold router. destruct (router_val i); simpl; split; congruence. Qed.

Lemma router_set_router l i : router (set_router l i) = l.
Proof. by destruct l. Qed.

Lemma plain_components_unfold i :
  plain_components i = true ↔
  Forall (λ kc, inherited (component kc.2) = false
                ∧ plain_components kc.2 = true) (viewports i).
Proof.
  destruct i as [c vs rt u]. simpl.
  induction vs as [|[k x] vs IH]; simpl.
  - split; [constructor|done].
  - rewrite Forall_cons, <- IH, !andb_true_iff, negb_true_iff. simpl. tauto.
Qed.

Lemma Instruction_nested_ind (P : Instruction → Prop) :
  (∀ c vs rt u, Forall (λ kc, P kc.2) vs → P (mkInstruction c vs rt u)) →
  ∀ i, P i.
Proof.
  intros step. fix IH 1. intros [c vs rt u]. apply step.
  induction vs as [|[k x] vs IHvs]; constructor; [apply IH | apply IHvs].
Qed.

Section InvariantFacts.
Context {G : Type} `{Gr : Grammar G}.
Implicit Types (w : World) (this : loc) (r : Router).

Section Closure.
Variable I : World → Prop.
Hypothesis HI : closed I.

Lemma closed_add_call w c : I w → I (add_call c w).
Proof. intros H. by apply (closed_collaborators I HI w _ (c :: log w)). Qed.

Lemma childRouter_closed w this nm w' c :
  childRouter w this nm = Some (w', c) → I w → I w'.
Proof.
  intros H Hw.
  apply childRouter_cases in H
    as (r & Hr & [(l & _ & _ & ->)|[(_ & _ & _ & ->)|(Hc & _ & _ & ->)]]);
    [done|done|].
  by apply (closed_child I HI w this r).
Qed.

Lemma navigate_closed w this url w' p :
  navigate w this url = Some (w', p) → I w → I w'.
Proof.
  unfold navigate. intros H Hw.
  destruct (heap w !! this) as [r|]; simpl in H; [|done].
  destruct (navigating r || _); simplify_eq; [done|].
  destruct (g_recognize _ _); simplify_eq.
  - apply closed_add_call. unfold _startNavigating.
    apply (closed_navigating I HI). by apply closed_add_call.
  - by apply closed_add_call.
Qed.

Lemma navigate_settle_closed w this i o w' o' :
  navigate_settle w this i o = Some (w', o') → I w → I w'.
Proof.
  unfold navigate_settle. intros H Hw.
  destruct (heap w !! this) as [r|]; simpl in H; [|done].
  destruct o; simplify_eq; [|done].
  apply (closed_lastNavigatedUrl I HI). unfold _finishNavigating.
  by apply (closed_navigating I HI).
Qed.

Lemma renavigate_closed w this w' p :
  renavigate w this = Some (w', p) → I w → I w'.
Proof.
  unfold renavigate. intros H Hw.
  destruct (heap w !! this) as [r|]; simpl in H; [|done].
  destruct (js_or _ _); simplify_eq; [|done].
  destruct (negb _ && _); simplify_eq; [|done].
  by eapply navigate_closed.
Qed.

Lemma registerViewport_closed w this view nm w' p :
  registerViewport w this view nm = Some (w', p) → I w → I w'.
Proof.
  unfold registerViewport. intros H Hw.
  destruct (heap w !! this) as [r|]; simpl in H; [|done].
  eapply renavigate_closed; [done|]. by apply (closed_ports I HI).
Qed.

Lemma config_closed w this m w' p :
  config w this m = Some (w', p) → I w → I w'.
Proof.
  unfold config. intros H Hw.
  destruct (heap w !! this) as [r|]; simpl in H; [|done].
  eapply renavigate_closed; [done|].
  by apply (closed_collaborators I HI w).
Qed.

Lemma generate_closed w this nm ps w' u :
  generate w this nm ps = Some (w', u) → I w → I w'.
Proof.
  unfold generate. intros H Hw.
  destruct (heap w !! this) as [r|]; simplify_eq/=.
  by apply closed_add_call.
Qed.

Lemma assignRouters_closed vs : ∀ w rt w' cs,
  assignRouters w rt vs = Some (w', cs) → I w → I w'.
Proof.
  induction vs as [|[vp child] vs IH]; intros w rt w' cs H Hw;
    simplify_eq/=; [done|].
  destruct rt as [this| |]; simplify_eq/=.
  destruct (childRouter w this _) as [[w1 c]|] eqn:Hc; simplify_eq/=.
  destruct (assignRouters w1 _ vs) as [[w2 cs']|] eqn:Ha; simplify_eq/=.
  eapply IH; [done|]. by eapply childRouter_closed.
Qed.

Lemma descend_closed walk vs :
  Forall (λ kc, ∀ w rt w' i', walk w rt kc.2 = Some (w', i') → I w → I w') vs →
  ∀ w cs w' vs', descend walk w vs cs = Some (w', vs') → I w → I w'.
Proof.
  induction 1 as [|[vp child] vs Hx _ IH]; intros w cs w' vs' H Hw;
    simplify_eq/=; [done|].
  destruct cs as [|c cs]; simplify_eq/=; [done|].
  destruct (walk w c child) as [[w1 child']|] eqn:Hc; simplify_eq/=.
  destruct (descend walk w1 vs cs) as [[w2 rest]|] eqn:Hd; simplify_eq/=.
  eapply IH; [done|]. by eapply Hx.
Qed.

Lemma traverseInstructionSync_closed i : ∀ w rt w' i',
  traverseInstructionSync w rt i = Some (w', i') → I w → I w'.
Proof.
  induction i as [c vs rt0 u IH] using Instruction_nested_ind.
  intros w rt w' i' H Hw. simpl in H.
  destruct (assignRouters w rt vs) as [[w1 cs]|] eqn:Ha; simplify_eq/=.
  destruct (descend _ w1 vs cs) as [[w2 vs']|] eqn:Hd; simplify_eq/=.
  eapply descend_closed; [exact IH|done|]. by eapply assignRouters_closed.
Qed.

Lemma step_closed w op : I w → I (step w op).
Proof.
  intros Hw. destruct op; simpl.
  - by apply (closed_root I HI).
  - destruct (childRouter _ _ _) as [[??]|] eqn:E; simpl; [|done].
    by eapply childRouter_closed.
  - destruct (registerViewport _ _ _ _) as [[??]|] eqn:E; simpl; [|done].
    by eapply registerViewport_closed.
  - destruct (config _ _ _) as [[??]|] eqn:E; simpl; [|done].
    by eapply config_closed.
  - destruct (navigate _ _ _) as [[??]|] eqn:E; simpl; [|done].
    by eapply navigate_closed.
  - destruct (navigate_settle _ _ _ _) as [[??]|] eqn:E; simpl; [|done].
    by eapply navigate_settle_closed.
  - destruct (renavigate _ _) as [[??]|] eqn:E; simpl; [|done].
    by eapply renavigate_closed.
  - destruct (generate _ _ _ _) as [[??]|] eqn:E; simpl; [|done].
    by eapply generate_closed.
  - destruct (makeDescendantRouters _ _) as [[??]|] eqn:E; simpl; [|done].
    by eapply traverseInstructionSync_closed.
Qed.

Lemma run_closed ops : ∀ w, I w → I (run w ops).
Proof.
  induction ops as [|op ops IH]; intros w Hw; simpl; [done|].
  apply IH. by apply step_closed.
Qed.
End Closure.

Lemma update_cases w this f l r' :
  heap (update this f w) !! l = Some r' →
  (l = this ∧ ∃ r, heap w !! this = Some r ∧ r' = f r)
  ∨ (heap w !! l = Some r').
Proof.
  unfold update. destruct (heap w !! this) as [r|] eqn:Hr; [|by right].
  simpl. destruct (decide (l = this)) as [->|Hne].
  - rewrite lookup_insert_eq. intros [= <-]. left. eauto.
  - rewrite lookup_insert_ne by done. by right.
Qed.

Lemma all_routers_update (P : Router → Prop) w this f :
  (∀ r, P r → P (f r)) → all_routers P w → all_routers P (update this f w).
Proof.
  intros Hf Hw l r' Hl.
  apply update_cases in Hl as [[-> (r & Hr & ->)]|Hl]; eauto.
Qed.

Lemma all_routers_newRouter (P : Router → Prop) w g pl par nm :
  P (mkRouter nm par false ∅ ∅ g pl None None None) →
  all_routers P w → all_routers P (newRouter w g pl par nm).1.
Proof.
  intros Hn Hw l r Hl. simpl in Hl.
  destruct (decide (l = next_loc w)) as [->|Hne].
  - rewrite lookup_insert_eq in Hl. by simplify_eq.
  - rewrite lookup_insert_ne in Hl by done. eauto.
Qed.

(** No write of the router code touches [previousUrl] or
    [lastNavigationAttempt]. *)
Lemma no_renavigation_target_closed :
  closed (all_routers no_renavigation_target).
Proof.
  split.
  - intros w this b. apply all_routers_update. by intros r [??].
  - intros w this p. apply all_routers_update. by intros r [??].
  - intros w this u. apply all_routers_update. by intros r [??].
  - intros w gs cs Hw l r Hl. by apply (Hw l r).
  - intros w this r nm Hw _ _. apply all_routers_update; [by intros ? [??]|].
    by apply all_routers_newRouter.
  - intros w g p Hw. by apply all_routers_newRouter.
Qed.

Lemma frame_set_navigating b : frame (set_navigating b).
Proof. by intros r. Qed.
Lemma frame_set_ports p : frame (set_ports p).
Proof. by intros r. Qed.
Lemma frame_set_lastNavigatedUrl u : frame (set_lastNavigatedUrl u).
Proof. by intros r. Qed.

Lemma tree_shaped_update w this f :
  frame f → tree_shaped w → tree_shaped (update this f w).
Proof.
  intros Hf [Hb Hc]. split.
  - intros l r' Hl. rewrite update_next_loc.
    apply update_cases in Hl as [[-> (r & Hr & ->)]|Hl]; eauto.
  - intros l r' nm c Hl Hnm.
    assert (∃ r, heap w !! l = Some r ∧ children r !! nm = Some c
                 ∧ registry r' = registry r ∧ pipeline r' = pipeline r)
      as (r & Hr & Hrc & -> & ->).
    { apply update_cases in Hl as [[-> (r & Hr & ->)]|Hl].
      - destruct (Hf r) as ((_ & _ & ? & ? & _) & Hch).
        rewrite Hch in Hnm. eauto.
      - eauto. }
    destruct (Hc l r nm c Hr Hrc) as (Hlt & rc & Hrc' & Hp & Hn & Hg & Hpl).
    split; [done|].
    destruct (decide (c = this)) as [->|Hne].
    + exists (f rc). split; [by apply update_lookup|].
      destruct (Hf rc) as ((-> & -> & -> & -> & _) & _). done.
    + exists rc. by rewrite update_lookup_ne.
Qed.

Lemma tree_shaped_closed : closed tree_shaped.
Proof.
  split.
  - intros w this b. apply tree_shaped_update, frame_set_navigating.
  - intros w this p. apply tree_shaped_update, frame_set_ports.
  - intros w this u. apply tree_shaped_update, frame_set_lastNavigatedUrl.
  - by intros w gs cs [Hb Hc].
  - intros w this r nm [Hb Hc] Hr Hnm.
    pose proof (Hb _ _ Hr) as Hlt.
    assert (heap w !! next_loc w = None) as Hfresh.
    { destruct (heap w !! next_loc w) eqn:E; [|done].
      apply Hb in E. lia. }
    unfold update, newChildRouter, newRouter. simpl.
    rewrite lookup_insert_ne by lia. rewrite Hr. simpl.
    split; simpl.
    + intros l r' Hl.
      destruct (decide (l = this)) as [->|?]; [lia|].
      rewrite lookup_insert_ne in Hl by done.
      destruct (decide (l = next_loc w)) as [->|?]; [lia|].
      rewrite lookup_insert_ne in Hl by done. apply Hb in Hl. lia.
    + intros l r' k c Hl Hk.
      destruct (decide (l = this)) as [->|Hl1].
      * rewrite lookup_insert_eq in Hl. simplify_eq. simpl in Hk.
        destruct (decide (k = nm)) as [->|Hk1].
        -- rewrite lookup_insert_eq in Hk. simplify_eq.
           split; [done|]. eexists. rewrite lookup_insert_ne by lia.
           rewrite lookup_insert_eq. done.
        -- rewrite lookup_insert_ne in Hk by done.
           destruct (Hc _ _ _ _ Hr Hk) as (? & rc & Hrc & ?).
           split; [done|]. exists rc. split; [|done].
           assert (next_loc w ≠ c) by congruence.
           by rewrite !lookup_insert_ne by lia.
      * rewrite lookup_insert_ne in Hl by done.
        destruct (decide (l = next_loc w)) as [->|Hl2].
        -- rewrite lookup_insert_eq in Hl.
           simplify_eq/=; try by rewrite lookup_empty in Hk.
        -- rewrite lookup_insert_ne in Hl by done.
           destruct (Hc _ _ _ _ Hl Hk) as (? & rc & Hrc & Hp & ?).
           split; [done|].
           destruct (decide (c = this)) as [->|Hc1].
           ++ rewrite lookup_insert_eq. eexists. split; [done|].
              simplify_eq. done.
           ++ exists rc. split; [|done].
              assert (next_loc w ≠ c) by congruence.
              by rewrite !lookup_insert_ne by done.
  - intros w g p [Hb Hc]. unfold newRootRouter, newRouter. simpl.
    assert (heap w !! next_loc w = None) as Hfresh.
    { destruct (heap w !! next_loc w) eqn:E; [|done].
      apply Hb in E. lia. }
    split; simpl.
    + intros l r Hl. destruct (decide (l = next_loc w)) as [->|?]; [lia|].
      rewrite lookup_insert_ne in Hl by done. apply Hb in Hl. lia.
    + intros l r k c Hl Hk.
      destruct (decide (l = next_loc w)) as [->|?].
      * rewrite lookup_insert_eq in Hl.
        simplify_eq/=; try by rewrite lookup_empty in Hk.
      * rewrite lookup_insert_ne in Hl by done.
        destruct (Hc _ _ _ _ Hl Hk) as (? & rc & Hrc & ?).
        split; [done|]. exists rc. split; [|done].
        assert (next_loc w ≠ c) by congruence.
        by rewrite lookup_insert_ne by done.
Qed.

Lemma same_identity_refl r : same_identity r r.
Proof. by repeat split. Qed.

Lemma same_identity_trans r1 r2 r3 :
  same_identity r1 r2 → same_identity r2 r3 → same_identity r1 r3.
Proof.
  intros (? & ? & ? & ? & ? & ?) (? & ? & ? & ? & ? & ?).
  repeat split; congruence.
Qed.

Lemma grows_refl w : grows w w.
Proof.
  split; [done|]. intros l r Hl. exists r.
  split; [done|]. split; [apply same_identity_refl|done].
Qed.

Lemma grows_trans w1 w2 w3 : grows w1 w2 → grows w2 w3 → grows w1 w3.
Proof.
  intros [Hn1 H1] [Hn2 H2]. split; [lia|]. intros l r Hl.
  destruct (H1 l r Hl) as (r2 & Hl2 & ? & ?).
  destruct (H2 l r2 Hl2) as (r3 & Hl3 & ? & ?).
  exists r3. split; [done|]. split; [by eapply same_identity_trans|by etrans].
Qed.

Lemma grows_update w this f : frame f → grows w (update this f w).
Proof.
  intros Hf. split; [by rewrite update_next_loc|]. intros l r Hl.
  destruct (decide (l = this)) as [->|Hne].
  - exists (f r). split; [by apply update_lookup|].
    destruct (Hf r) as (? & ->). done.
  - exists r. rewrite update_lookup_ne by done.
    split; [done|]. split; [apply same_identity_refl|done].
Qed.

Lemma grows_child w this r nm :
  tree_shaped w → heap w !! this = Some r → children r !! nm = None →
  grows w (update this (set_children (<[nm := next_loc w]> (children r)))
                  (newChildRouter w this r nm).1).
Proof.
  intros [Hb _] Hr Hnm. pose proof (Hb _ _ Hr) as Hlt.
  unfold update, newChildRouter, newRouter. simpl.
  rewrite lookup_insert_ne by lia. rewrite Hr. simpl.
  split; simpl; [lia|]. intros l r' Hl.
  destruct (decide (l = this)) as [->|Hne].
  - rewrite lookup_insert_eq. eexists. split; [done|]. simplify_eq. simpl.
    split; [by repeat split|]. by apply insert_subseteq.
  - exists r'. rewrite !lookup_insert_ne; [|intros <-; apply Hb in Hl; lia|done].
    split; [done|]. split; [apply same_identity_refl|done].
Qed.

Lemma grows_newRootRouter w g p :
  tree_shaped w → grows w (newRootRouter w g p).1.
Proof.
  intros [Hb _]. split; simpl; [lia|]. intros l r Hl. exists r.
  rewrite lookup_insert_ne; [|intros <-; apply Hb in Hl; lia].
  split; [done|]. split; [apply same_identity_refl|done].
Qed.

(** From any well-shaped stage on, the router code only adds to the
    store. *)
Lemma growing_closed w0 : closed (λ w, tree_shaped w ∧ grows w0 w).
Proof.
  pose proof tree_shaped_closed as [T1 T2 T3 T4 T5 T6].
  split.
  - intros w this b [??]. split; [by apply T1|].
    eapply grows_trans; [done|]. apply grows_update, frame_set_navigating.
  - intros w this p [??]. split; [by apply T2|].
    eapply grows_trans; [done|]. apply grows_update, frame_set_ports.
  - intros w this u [??]. split; [by apply T3|].
    eapply grows_trans; [done|].
    apply grows_update, frame_set_lastNavigatedUrl.
  - intros w gs cs [? Hg]. split; [by apply T4|]. exact Hg.
  - intros w this r nm [??] Hr Hnm. split; [by apply T5|].
    eapply grows_trans; [done|]. by apply grows_child.
  - intros w g p [??]. split; [by apply T6|].
    eapply grows_trans; [done|]. by apply grows_newRootRouter.
Qed.

Lemma tree_shaped_empty gs : tree_shaped (empty_world gs).
Proof. split; intros l r; simpl; by rewrite lookup_empty. Qed.

Lemma tree_shaped_run gs ops : tree_shaped (run (empty_world gs) ops).
Proof. apply run_closed; [apply tree_shaped_closed|apply tree_shaped_empty]. Qed.

(** *** [childRouter] *)

Lemma childRouter_existing w this r nm c :
  heap w !! this = Some r → children r !! default_name nm = Some c →
  childRouter w this nm = Some (w, Stored c).
Proof. intros Hr Hc. unfold childRouter. rewrite Hr. simpl. by rewrite Hc. Qed.

Lemma childRouter_same_world w this nm c :
  childRouter w this nm = Some (w, Stored c) →
  ∃ r, heap w !! this = Some r ∧ children r !! default_name nm = Some c.
Proof.
  intros H.
  apply childRouter_cases in H
    as (r & Hr & [(l & Hl & ? & _)|[(_ & _ & ? & _)|(_ & _ & _ & H)]]);
    simplify_eq.
  - eauto.
  - exfalso. assert (next_loc w = S (next_loc w)) as E; [|lia].
    rewrite H at 1. by rewrite update_next_loc.
Qed.

Lemma childRouter_registers w this nm w' c :
  tree_shaped w → childRouter w this nm = Some (w', Stored c) →
  ∃ r', heap w' !! this = Some r' ∧ children r' !! default_name nm = Some c.
Proof.
  intros [Hb _] H.
  apply childRouter_cases in H
    as (r & Hr & [(l & Hl & ? & ->)|[(_ & _ & ? & _)|(_ & _ & ? & ->)]]);
    simplify_eq.
  - eauto.
  - pose proof (Hb _ _ Hr) as Hlt. eexists. split.
    + apply update_lookup. simpl. rewrite lookup_insert_ne by lia. done.
    + simpl. apply lookup_insert_eq.
Qed.

(** Under a name that is none of [Object.prototype], what [childRouter]
    hands back is a Router object. *)
Lemma childRouter_plain_name w this nm w' c :
  inherited (default_name nm) = false →
  childRouter w this nm = Some (w', c) → ∃ l, c = Stored l.
Proof.
  intros Hi H.
  apply childRouter_cases in H
    as (r & Hr & [(l & _ & -> & _)|[(_ & ? & _)|(_ & _ & -> & _)]]);
    [eauto|congruence|eauto].
Qed.

(** Under a name of [Object.prototype] that is no own key, [childRouter]
    hands back the inherited member and writes nothing. *)
Lemma childRouter_inherited_name w this r nm :
  heap w !! this = Some r →
  children r !! default_name nm = None →
  inherited (default_name nm) = true →
  childRouter w this nm = Some (w, Inherited (default_name nm)).
Proof.
  intros Hr Hc Hi. unfold childRouter, js_get. rewrite Hr. simpl.
  by rewrite Hc, Hi.
Qed.

End InvariantFacts.

(** ** The navigation guard, rejection and renavigation *)

Section NavigationClaims.
Context {G : Type} `{Gr : Grammar G}.
Implicit Types (w : World) (this : loc) (r : Router) (url : string).

(** C4: if [navigating] is true or [url] equals [lastNavigatedUrl],
    [navigate(url)] returns an already resolved promise; neither
    [Grammar.recognize] nor [Pipeline.process] is called (the call log is
    as before) and no router field is written (the store is as before, so
    a navigation in flight is untouched). *)
Theorem navigate_guard_is_noop w this r url :
  heap w !! this = Some r →
  navigating r = true ∨ lastNavigatedUrl r = Some url →
  ∃ w' v, navigate w this url = Some (w', Settled (Fulfilled v))
          ∧ log w' = log w ∧ heap w' = heap w ∧ grammars w' = grammars w
          ∧ next_loc w' = next_loc w.
Proof.
  intros Hr Hg. exists w, VUndefined.
  by rewrite (navigate_guard w this r url Hr Hg).
Qed.

(** C10, as amended: when the guard fires, the promise of [navigate] is
    fulfilled with [undefined], which is not a string, while a navigation
    that completes is fulfilled with the canonical URL string; whatever
    value a completed navigation hands back, its [typeof] differs from that
    of the value of the no-op, so a caller can tell the two apart by the
    type of the value. *)
Theorem navigate_guard_resolves_undefined w this r url :
  heap w !! this = Some r →
  navigating r = true ∨ lastNavigatedUrl r = Some url →
  (∃ w', navigate w this url = Some (w', Settled (Fulfilled VUndefined)))
  ∧ (∀ s, VUndefined ≠ VStr s)
  ∧ (∀ i v, ∃ w', navigate_settle w this i (Fulfilled v)
                    = Some (w', Fulfilled (VStr (canonicalUrl i))))
  ∧ (∀ w0 this0 i v w1 done,
       navigate_settle w0 this0 i (Fulfilled v) = Some (w1, Fulfilled done) →
       js_typeof done = "string" ∧ js_typeof done ≠ js_typeof VUndefined).
Proof.
  intros Hr Hg. split; [|split; [|split]].
  - exists w. by apply (navigate_guard w this r).
  - done.
  - intros i v.
    destruct (navigate_settle_fulfilled w this r i v Hr) as (w' & ? & _).
    by exists w'.
  - intros w0 this0 i v w1 done H. unfold navigate_settle in H.
    destruct (heap w0 !! this0); simplify_eq/=. done.
Qed.

(** C3, as amended: on an idle router, for a [url] that is not the
    [lastNavigatedUrl] and that the grammar does not recognise,
    [navigate(url)] returns a rejected promise; the store is as before
    ([navigating] is never set) and the only call made is
    [Grammar.recognize]. *)
Theorem navigate_no_match_rejects w this r url :
  heap w !! this = Some r →
  navigating r = false →
  lastNavigatedUrl r ≠ Some url →
  g_recognize (grammars w (registry r)) url = None →
  ∃ w', navigate w this url = Some (w', Settled (Rejected VUndefined))
        ∧ heap w' = heap w ∧ grammars w' = grammars w
        ∧ next_loc w' = next_loc w
        ∧ log w' = CRecognize (registry r) url :: log w.
Proof.
  intros Hr Hn Hu Hg.
  rewrite (navigate_past_guard w this r url Hr Hn Hu), Hg.
  by eexists.
Qed.

(** [registerViewport] stores the handle under the name, whatever was
    there, and hands back what [renavigate] hands back. *)
Lemma registerViewport_stores w this r view nm :
  heap w !! this = Some r →
  default_name nm ≠ "__proto__" →
  let w1 := update this (set_ports (<[default_name nm := view]> (ports r))) w in
  registerViewport w this view nm = renavigate w1 this
  ∧ ∃ r1, heap w1 !! this = Some r1
          ∧ ports r1 !! default_name nm = Some view.
Proof.
  intros Hr Hnm w1. split.
  - unfold registerViewport, js_set. rewrite Hr.
    by destruct (String.eqb_spec (default_name nm) "__proto__").
  - eexists. split; [by apply update_lookup|]. simpl. apply lookup_insert_eq.
Qed.

(** [renavigate] on an idle router with a truthy destination is
    [navigate] to [previousUrl], or else to [lastNavigationAttempt]. *)
Lemma renavigate_reissues w this r dest :
  heap w !! this = Some r →
  navigating r = false →
  js_or (previousUrl r) (lastNavigationAttempt r) = Some dest →
  dest ≠ "" →
  renavigate w this = navigate w this dest.
Proof.
  intros Hr Hn Hd Hne. unfold renavigate. rewrite Hr. simpl.
  rewrite Hd, Hn. simpl.
  destruct (String.eqb_spec dest ""); [done|]. done.
Qed.

Lemma renavigate_without_target w this r :
  heap w !! this = Some r →
  no_renavigation_target r →
  renavigate w this = Some (w, Settled (Fulfilled VUndefined)).
Proof.
  intros Hr [Hp Ha]. unfold renavigate. rewrite Hr. simpl.
  by rewrite Hp, Ha.
Qed.

Lemma step_grows w op : tree_shaped w → grows w (step w op).
Proof.
  intros Hw.
  apply (step_closed _ (growing_closed w) w op). split; [done|].
  apply grows_refl.
Qed.

Lemma run_grows ops : ∀ w, tree_shaped w → grows w (run w ops).
Proof.
  intros w Hw.
  apply (run_closed _ (growing_closed w) ops w). split; [done|].
  apply grows_refl.
Qed.

(** C9: on a router that is only ever operated through the router's own
    methods, [previousUrl] and [lastNavigationAttempt] are undefined and
    every further operation leaves them so; the destination [renavigate()]
    computes is therefore undefined, and it resolves at once, in its
    [else] branch, without calling [navigate]. *)
Theorem renavigation_urls_never_assigned (gs : gref → G) ops this r :
  heap (run (empty_world gs) ops) !! this = Some r →
  previousUrl r = None ∧ lastNavigationAttempt r = None
  ∧ js_or (previousUrl r) (lastNavigationAttempt r) = None
  ∧ renavigate (run (empty_world gs) ops) this
    = Some (run (empty_world gs) ops, Settled (Fulfilled VUndefined))
  ∧ ∀ op, ∃ r', heap (step (run (empty_world gs) ops) op) !! this = Some r'
                ∧ previousUrl r' = None ∧ lastNavigationAttempt r' = None.
Proof.
  intros Hr.
  assert (all_routers no_renavigation_target (run (empty_world gs) ops)) as Hall.
  { apply run_closed; [apply no_renavigation_target_closed|].
    intros l r0. simpl. by rewrite lookup_empty. }
  destruct (Hall _ _ Hr) as [Hp Ha].
  split; [done|]. split; [done|]. split; [by rewrite Hp, Ha|]. split.
  - by apply (renavigate_without_target _ _ r).
  - intros op.
    destruct (step_grows (run (empty_world gs) ops) op) as [_ Hg];
      [apply tree_shaped_run|].
    destruct (Hg _ _ Hr) as (r' & Hr' & (_ & _ & _ & _ & Hp' & Ha') & _).
    exists r'. split; [done|]. by rewrite Hp', Ha'.
Qed.

(** X18: under a name that is none of [Object.prototype],
    [childRouter(name)] hands back a Router object, and called twice it
    returns the identical object, the second call building nothing; the
    child holds the grammar and the pipeline objects of its parent and the
    parent as [parent]; and whatever is called on the routers afterwards,
    [childRouter(name)] keeps returning that object without building
    another. *)
Theorem childRouter_memoized (gs : gref → G) ops this nm w1 c :
  inherited (default_name nm) = false →
  childRouter (run (empty_world gs) ops) this nm = Some (w1, c) →
  ∃ l, c = Stored l
    ∧ childRouter w1 this nm = Some (w1, Stored l)
    ∧ (∃ p rc, heap w1 !! this = Some p ∧ heap w1 !! l = Some rc
               ∧ registry rc = registry p ∧ pipeline rc = pipeline p
               ∧ parent rc = Some this ∧ name rc = default_name nm)
    ∧ (∀ ops', childRouter (run w1 ops') this nm
               = Some (run w1 ops', Stored l)).
Proof.
  intros Hplain H.
  destruct (childRouter_plain_name _ _ _ _ _ Hplain H) as [l ->].
  exists l. split; [done|].
  pose proof (tree_shaped_run gs ops) as Hw.
  assert (tree_shaped w1) as Hw1
    by (eapply childRouter_closed; [apply tree_shaped_closed|done..]).
  destruct (childRouter_registers _ _ _ _ _ Hw H) as (p & Hp & Hc).
  split; [by eapply childRouter_existing|]. split.
  - destruct Hw1 as [_ Hch].
    destruct (Hch _ _ _ _ Hp Hc) as (_ & rc & Hrc & ? & ? & ? & ?).
    by exists p, rc.
  - intros ops'.
    destruct (run_grows ops' w1 Hw1) as [_ Hg].
    destruct (Hg _ _ Hp) as (p' & Hp' & _ & Hsub).
    eapply childRouter_existing; [done|].
    by eapply lookup_weaken.
Qed.

End NavigationClaims.

(** ** The welcome page, evaluated *)

(** C1: the pipeline rejects a navigation that passed the guard and was
    recognised.  The rejection reaches the caller with its reason and
    [lastNavigatedUrl] stays as it was, but [navigating] is still true
    afterwards, and the next [navigate] is swallowed by the guard. *)
Theorem navigate_rejection_leaves_navigating :
  navigate app_start 0 "/" = Some (app_navigating, AwaitsPipeline 0 welcome_at_root)
  ∧ navigate_settle app_navigating 0 welcome_at_root (Rejected (VStr "veto"))
    = Some (app_navigating, Rejected (VStr "veto"))
  ∧ navigating <$> heap app_navigating !! 0 = Some true
  ∧ lastNavigatedUrl <$> heap app_navigating !! 0
    = lastNavigatedUrl <$> heap app_start !! 0
  ∧ navigate app_navigating 0 "/welcome"
    = Some (app_navigating, Settled (Fulfilled VUndefined)).
Proof.
  split; [vm_compute; reflexivity|]. split; [vm_compute; reflexivity|].
  split; [vm_compute; reflexivity|]. split; vm_compute; reflexivity.
Qed.

(** C2: a view registered after a navigation has completed.  The handle is
    stored under the name and [renavigate] runs, but the destination it
    computes, [previousUrl || lastNavigationAttempt], is undefined: it
    resolves without issuing any navigation, the call log is as before,
    nothing is replayed. *)
Theorem registerViewport_after_navigation_replays_nothing :
  lastNavigatedUrl <$> heap app_arrived !! 0 = Some (Some "/welcome")
  ∧ ∃ w', registerViewport app_arrived 0 7 None
          = Some (w', Settled (Fulfilled VUndefined))
          ∧ (ports <$> heap w' !! 0) = Some {[ "default" := 7 ]}
          ∧ (λ r, js_or (previousUrl r) (lastNavigationAttempt r))
              <$> heap w' !! 0 = Some None
          ∧ log w' = log app_arrived
          ∧ renavigate w' 0 = Some (w', Settled (Fulfilled VUndefined)).
Proof.
  split; [vm_compute; reflexivity|].
  eexists. split; [vm_compute; reflexivity|].
  split; [vm_compute; reflexivity|]. split; [vm_compute; reflexivity|].
  split; vm_compute; reflexivity.
Qed.

(** C3, as stated, fails: the router is idle and the grammar no longer
    recognises [/welcome], yet [navigate('/welcome')] resolves, because
    [/welcome] is the [lastNavigatedUrl]. *)
Lemma navigate_no_match_resolves_at_last_url :
  (∃ r, heap app_reconfigured !! 0 = Some r ∧ navigating r = false
        ∧ g_recognize (grammars app_reconfigured (registry r)) "/welcome" = None)
  ∧ navigate app_reconfigured 0 "/welcome"
    = Some (app_reconfigured, Settled (Fulfilled VUndefined))
  ∧ ¬ ∃ w' reason, navigate app_reconfigured 0 "/welcome"
                   = Some (w', Settled (Rejected reason)).
Proof.
  split; [|split].
  - eexists. split; [vm_compute; reflexivity|].
    split; vm_compute; reflexivity.
  - vm_compute; reflexivity.
  - intros (w' & reason & H). vm_compute in H. discriminate H.
Qed.

(** C10, as stated, fails: the value of a completed navigation and the
    value of the no-op that follows it differ in type, a string against
    [undefined]. *)
Lemma navigate_noop_differs_in_type :
  ∃ w1 w2 done noop,
    navigate app_start 0 "/" = Some (w1, AwaitsPipeline 0 welcome_at_root)
    ∧ navigate_settle w1 0 welcome_at_root (Fulfilled VUndefined)
      = Some (w2, Fulfilled done)
    ∧ navigate w2 0 "/welcome" = Some (w2, Settled (Fulfilled noop))
    ∧ js_typeof done = "string" ∧ js_typeof noop = "undefined"
    ∧ js_typeof done ≠ js_typeof noop.
Proof.
  eexists _, _, _, _. split; [vm_compute; reflexivity|].
  split; [vm_compute; reflexivity|]. split; [vm_compute; reflexivity|].
  split; [reflexivity|]. split; [reflexivity|]. discriminate.
Qed.

(** C7: [childRouter('toString')] on the fresh root router.  The test
    [!this.children[name]] finds the member of [Object.prototype]: nothing
    is built, nothing is stored in [children], and what the caller gets is
    that member, on the first call and on the second; it is no Router
    object. *)
Theorem childRouter_prototype_name_is_no_router :
  inherited "toString" = true
  ∧ childRouter app_start 0 (Some "toString")
    = Some (app_start, Inherited "toString")
  ∧ children <$> heap app_start !! 0 = Some ∅
  ∧ ¬ ∃ w' l, childRouter app_start 0 (Some "toString")
              = Some (w', Stored l).
Proof.
  split; [vm_compute; reflexivity|]. split; [vm_compute; reflexivity|].
  split; [vm_compute; reflexivity|].
  intros (w' & l & H). vm_compute in H. discriminate H.
Qed.

(** C8: [makeDescendantRouters] on an instruction whose child shows a
    component called [toString].  When that child has a viewport of its
    own, the walk throws, at
    [instruction.router.childRouter(childInstruction.component)] for the
    grandchild, [instruction.router] being the member of
    [Object.prototype] that [childRouter] handed back for the child.  When
    the child has none, the walk ends, no router has been built and the
    child carries that member as its [router], no Router object. *)
Theorem makeDescendantRouters_prototype_component :
  makeDescendantRouters app_start print_nested = None
  ∧ ∃ i', makeDescendantRouters app_start print_flat = Some (app_start, i')
          ∧ router_val <$> viewport_own (viewports i') "main"
            = Some (Inherited "toString")
          ∧ router <$> viewport_own (viewports i') "main" = Some None.
Proof.
  split; [vm_compute; reflexivity|].
  eexists. split; [vm_compute; reflexivity|].
  split; vm_compute; reflexivity.
Qed.

(** ** The router tree builder *)

Section TreeBuilder.
Context {G : Type} `{Gr : Grammar G}.
Implicit Types (w : World) (this : loc) (i : Instruction).

Lemma has_child_grows w w' this k c :
  grows w w' → has_child w this k c → has_child w' this k c.
Proof.
  intros [_ Hg] (r & Hr & Hc).
  destruct (Hg _ _ Hr) as (r' & Hr' & _ & Hsub).
  exists r'. split; [done|]. by eapply lookup_weaken.
Qed.

Lemma has_child_childRouter w this k c :
  has_child w this k c ↔ childRouter w this (Some k) = Some (w, Stored c).
Proof.
  split.
  - intros (r & Hr & Hc). by eapply childRouter_existing.
  - apply childRouter_same_world.
Qed.

Lemma has_child_allocated w this k c :
  tree_shaped w → has_child w this k c → is_Some (heap w !! c).
Proof.
  intros [_ Hch] (r & Hr & Hc).
  destruct (Hch _ _ _ _ Hr Hc) as (_ & rc & Hrc & _). eauto.
Qed.

Lemma allocated_grows w w' this :
  grows w w' → is_Some (heap w !! this) → is_Some (heap w' !! this).
Proof.
  intros [_ Hg] [r Hr]. destruct (Hg _ _ Hr) as (r' & Hr' & _). eauto.
Qed.

Lemma childRouter_total w this nm :
  is_Some (heap w !! this) → is_Some (childRouter w this nm).
Proof.
  intros [r Hr]. unfold childRouter, js_get. rewrite Hr. simpl.
  destruct (children r !! default_name nm); [eauto|].
  destruct (inherited (default_name nm)); eauto.
Qed.

Lemma childRouter_grows w this nm w' c :
  tree_shaped w → childRouter w this nm = Some (w', c) →
  tree_shaped w' ∧ grows w w'.
Proof.
  intros Hw H.
  apply (childRouter_closed _ (growing_closed w) w this nm w' c H).
  split; [done|apply grows_refl].
Qed.

Lemma routed_unfold w i :
  routed w i ↔
  Forall (λ kc, (∃ rp rc, router i = Some rp ∧ router kc.2 = Some rc ∧
                   childRouter w rp (Some (component kc.2))
                   = Some (w, Stored rc))
                ∧ routed w kc.2) (viewports i).
Proof.
  destruct i as [c vs rt u]. simpl.
  induction vs as [|[k x] vs IH]; simpl.
  - split; [constructor|done].
  - rewrite Forall_cons. simpl. rewrite <- IH. tauto.
Qed.

Lemma routed_grows i : ∀ w w', grows w w' → routed w i → routed w' i.
Proof.
  induction i as [c vs rt u IH] using Instruction_nested_ind.
  intros w w' Hg. rewrite !routed_unfold. simpl.
  generalize (router (mkInstruction c vs rt u)). intros rti.
  intros H. induction H as [|[k x] vs' [(rp & rc & ? & ? & Hc) Hx] _ IHvs];
    [constructor|].
  apply Forall_cons in IH as [IHx IHrest]. constructor; [|by apply IHvs].
  split.
  - exists rp, rc. split; [done|]. split; [done|].
    apply has_child_childRouter. eapply has_child_grows; [done|].
    by apply has_child_childRouter.
  - by eapply IHx.
Qed.

(** The first loop: every child gets the router kept under its component
    name in the children of [this]. *)
Lemma assignRouters_spec vs : ∀ w this,
  tree_shaped w → is_Some (heap w !! this) →
  Forall (λ kc, inherited (component kc.2) = false) vs →
  ∃ w' cs, assignRouters w (Stored this) vs = Some (w', Stored <$> cs)
           ∧ tree_shaped w' ∧ grows w w'
           ∧ Forall2 (λ kc c, has_child w' this (component kc.2) c) vs cs.
Proof.
  induction vs as [|[vp child] vs IH]; intros w this Hw Hthis Hplain; simpl.
  - exists w, []. split; [done|]. split; [done|].
    split; [apply grows_refl|constructor].
  - apply Forall_cons in Hplain as [Hchild Hplain]. simpl in Hchild.
    destruct (childRouter_total w this (Some (component child)) Hthis)
      as [[w1 c0] Hc].
    destruct (childRouter_plain_name _ _ (Some (component child)) _ _
                Hchild Hc) as [c ->].
    rewrite Hc. simpl.
    destruct (childRouter_grows _ _ _ _ _ Hw Hc) as [Hw1 Hg1].
    destruct (childRouter_registers _ _ _ _ _ Hw Hc) as (r1 & Hr1 & Hk).
    destruct (IH w1 this Hw1 (allocated_grows _ _ _ Hg1 Hthis) Hplain)
      as (w2 & cs & Ha & Hw2 & Hg2 & Hall).
    rewrite Ha. simpl. exists w2, (c :: cs).
    split; [done|]. split; [done|].
    split; [by eapply grows_trans|].
    constructor; [|done]. simpl.
    eapply has_child_grows; [done|]. by exists r1.
Qed.

Lemma descend_spec vs :
  Forall (λ kc, walk_spec kc.2) vs →
  Forall (λ kc, plain_components kc.2 = true) vs →
  ∀ w cs, tree_shaped w → Forall2 (λ kc c, is_Some (heap w !! c)) vs cs →
    ∃ w' vs', descend traverseInstructionSync w vs (Stored <$> cs)
              = Some (w', vs')
              ∧ tree_shaped w' ∧ grows w w'
              ∧ Forall2 (λ kc' x, kc'.1 = x.1.1 ∧ erase kc'.2 = erase x.1.2
                                  ∧ router kc'.2 = Some x.2
                                  ∧ routed w' kc'.2)
                        vs' (zip vs cs).
Proof.
  induction 1 as [|[vp child] vs Hx _ IH]; intros Hplain w cs Hw Hcs.
  - exists w, []. simpl. split; [done|]. split; [done|].
    split; [apply grows_refl|constructor].
  - apply Forall_cons in Hplain as [Hchild Hplain].
    destruct cs as [|c cs]; [by apply Forall2_cons_nil_inv in Hcs|].
    apply Forall2_cons in Hcs as [Hc Hcs]. simpl in *.
    destruct (Hx w c Hw Hc Hchild)
      as (w1 & child' & Hwalk & Hw1 & Hg1 & Hr & He & Hrt).
    rewrite Hwalk. simpl.
    change (list_fmap nat (Slot nat) Stored cs) with (Stored <$> cs).
    destruct (IH Hplain w1 cs Hw1) as (w2 & rest & Hd & Hw2 & Hg2 & Hall).
    { eapply Forall2_impl; [exact Hcs|]. simpl. intros ???. by eapply allocated_grows. }
    rewrite Hd. simpl. exists w2, ((vp, child') :: rest).
    split; [done|]. split; [done|]. split; [by eapply grows_trans|].
    constructor; [|done]. simpl.
    split; [done|]. split; [done|]. split; [done|]. by eapply routed_grows.
Qed.

Lemma erase_component i : component (erase i) = component i.
Proof. by destruct i. Qed.

Lemma traverseInstructionSync_spec i : walk_spec i.
Proof.
  induction i as [c vs rt u IH] using Instruction_nested_ind.
  intros w this Hw Hthis Hplain. simpl in Hplain.
  assert (Forall (λ kc, inherited (component kc.2) = false) vs
          ∧ Forall (λ kc, plain_components kc.2 = true) vs) as [Hp1 Hp2].
  { rewrite forallb_forall in Hplain. split; apply Forall_forall;
      intros kc Hkc; apply list_elem_of_In, Hplain, andb_prop in Hkc as [H1 H2];
      [by apply negb_true_iff in H1|done]. }
  cbn [traverseInstructionSync viewports component canonicalUrl].
  destruct (assignRouters_spec vs w this Hw Hthis Hp1)
    as (w1 & cs & Ha & Hw1 & Hg1 & Hall).
  rewrite Ha. cbn [mbind option_bind].
  destruct (descend_spec vs IH Hp2 w1 cs Hw1)
    as (w2 & vs' & Hd & Hw2 & Hg2 & Hres).
  { eapply Forall2_impl; [exact Hall|]. simpl. intros ???. by eapply has_child_allocated. }
  rewrite Hd. simpl. eexists w2, _. split; [done|].
  split; [done|]. split; [by eapply grows_trans|]. split; [done|].
  assert (Forall (λ x, has_child w2 this (component x.1.2) x.2) (zip vs cs))
    as Hzip.
  { clear -Hall Hg2. induction Hall as [|[??] ???? IHa]; simpl; constructor;
      [by eapply has_child_grows|done]. }
  split.
  - simpl. f_equal. apply Forall2_length in Hall.
    clear -Hres Hall. revert cs vs' Hall Hres.
    induction vs as [|[k x] vs IHvs]; intros [|c0 cs] vs' Hlen Hres;
      simplify_eq/=.
    + by apply Forall2_nil_inv_r in Hres as ->.
    + apply Forall2_cons_inv_r in Hres
        as ([k' x'] & rest & (? & He & _) & Hrest & ->).
      simpl in *. subst k'. rewrite He. f_equal. by eapply IHvs.
  - apply routed_unfold. simpl.
    clear -Hres Hzip.
    induction Hres as [|[k' x'] [[k x] c0] ?? (? & He & Hr & Hrt) _ IHr];
      [constructor|].
    apply Forall_cons in Hzip as [Hz Hzip]. simpl in *.
    constructor; [|by apply IHr]. simpl. split; [|done].
    exists this, c0. split; [done|]. split; [done|].
    apply has_child_childRouter.
    rewrite <- (erase_component x'), He, erase_component. done.
Qed.

End TreeBuilder.

(** ** Facts about promises and level barriers *)

Lemma first_rejection_None ps :
  first_rejection ps = None →
  ∀ p, p ∈ ps → ∀ t r, p ≠ Some (t, Rejected r).
Proof.
  induction ps as [|q ps IH]; intros H p Hp t r; [by apply elem_of_nil in Hp|].
  simpl in H.
  destruct q as [[tq [vq|rq]]|]; destruct (first_rejection ps) as [[t' r']|] eqn:E;
    simplify_eq/=; try (by destruct (t' <? tq)).
  all: apply elem_of_cons in Hp as [->|Hp]; [done|by apply IH].
Qed.


(** [Promise.all] is fulfilled only once every element is. *)
Lemma promise_all_fulfilled now ps t v :
  promise_all now ps = Some (t, Fulfilled v) →
  now ≤ t ∧ ∀ p, p ∈ ps → ∃ t' v', p = Some (t', Fulfilled v') ∧ t' ≤ t.
Proof.
  unfold promise_all.
  destruct (first_rejection ps) as [[tr r]|] eqn:Hrej; [done|].
  destruct (mapM fulfilment ps) as [tvs|] eqn:Hm; simpl; [|done].
  intros [= <- <-]. split; [lia|]. intros p Hp.
  apply mapM_Some in Hm.
  apply list_elem_of_lookup_1 in Hp as [n Hn].
  destruct (Forall2_lookup_l _ _ _ _ _ Hm Hn) as ([t' v'] & Htv & Hf).
  destruct p as [[tp [vp|rp]]|]; simplify_eq/=.
  exists t', v'. split; [done|].
  assert (t' ∈ tvs.*1) as Hin.
  { apply list_elem_of_fmap. exists (t', v'). split; [done|].
    apply list_elem_of_lookup. eauto. }
  apply max_list_elem_of_le in Hin. lia.
Qed.


Section Barriers.
Implicit Types (path : list string) (evs : list Event).

Lemma path_extension_ne path k ks : path ++ k :: ks ≠ path.
Proof.
  intros H. apply (f_equal length) in H. rewrite length_app in H.
  simpl in H. lia.
Qed.

Lemma path_same_branch path k1 ks1 k2 ks2 :
  path ++ k1 :: ks1 = path ++ k2 :: ks2 → k1 = k2.
Proof. intros H. apply app_inv_head in H. congruence. Qed.

Lemma below_same_branch path k1 ks1 k2 ks2 :
  below (path ++ k1 :: ks1) (path ++ k2 :: ks2) → k1 = k2.
Proof.
  intros (k & ks & H). rewrite <- app_assoc in H. simpl in H.
  apply app_inv_head in H. congruence.
Qed.

Lemma not_below_self path : ¬ below path path.
Proof. intros (k & ks & H). symmetry in H. by apply path_extension_ne in H. Qed.

Lemma not_below_up path k ks : ¬ below (path ++ k :: ks) path.
Proof.
  intros (k' & ks' & H). rewrite <- app_assoc in H. symmetry in H.
  simpl in H. by apply path_extension_ne in H.
Qed.

Lemma barrier_local path now evs :
  (∀ e, e ∈ evs → ev_path e = path ∧ ev_issued e = now) →
  barrier path now evs.
Proof.
  intros H. split; [|split].
  - intros e He. destruct (H e He) as [Hp Hi]. split; [|split].
    + exists []. by rewrite app_nil_r.
    + lia.
    + done.
  - intros e1 e2 H1 H2 _. destruct (H e1 H1), (H e2 H2). congruence.
  - intros e1 e2 H1 H2 Hb. destruct (H e1 H1) as [Hp1 _], (H e2 H2) as [Hp2 _].
    rewrite Hp1, Hp2 in Hb. by apply not_below_self in Hb.
Qed.

Lemma forest_nil path t keys : forest path t keys [].
Proof.
  split; [|split].
  - intros e He. by apply elem_of_nil in He.
  - intros e1 e2 He. by apply elem_of_nil in He.
  - intros e1 e2 He. by apply elem_of_nil in He.
Qed.

Lemma forest_cons path t k keys evs1 evs2 :
  barrier (path ++ [k]) t evs1 → forest path t keys evs2 → k ∉ keys →
  forest path t (k :: keys) (evs1 ++ evs2).
Proof.
  intros (Hw & Ht1 & Ha1) (Hm & Ht2 & Ha2) Hk.
  assert (∀ e, e ∈ evs1 → ∃ ks, ev_path e = path ++ k :: ks) as Hp1.
  { intros e He. destruct (Hw e He) as [[ks Hks] _]. exists ks.
    rewrite Hks, <- app_assoc. done. }
  assert (∀ e1 e2, e1 ∈ evs1 → e2 ∈ evs2 →
            ev_path e1 ≠ ev_path e2 ∧ ¬ below (ev_path e1) (ev_path e2)
            ∧ ¬ below (ev_path e2) (ev_path e1)) as Hsep.
  { intros e1 e2 H1 H2. destruct (Hp1 e1 H1) as [ks1 E1].
    destruct (Hm e2 H2) as (k2 & ks2 & Hk2 & E2 & _). rewrite E1, E2.
    split; [|split].
    - intros E. apply path_same_branch in E. by subst.
    - intros E. apply below_same_branch in E. by subst.
    - intros E. apply below_same_branch in E. by subst. }
  split; [|split].
  - intros e He. apply elem_of_app in He as [He|He].
    + destruct (Hp1 e He) as [ks E]. destruct (Hw e He) as (_ & ? & _).
      exists k, ks. split; [by left|]. done.
    + destruct (Hm e He) as (k2 & ks2 & ? & ? & ?).
      exists k2, ks2. split; [by right|]. done.
  - intros e1 e2 H1 H2 E.
    apply elem_of_app in H1 as [H1|H1]; apply elem_of_app in H2 as [H2|H2].
    + by apply Ht1.
    + by destruct (Hsep e1 e2 H1 H2) as (? & _).
    + by destruct (Hsep e2 e1 H2 H1) as (? & _).
    + by apply Ht2.
  - intros e1 e2 H1 H2 E.
    apply elem_of_app in H1 as [H1|H1]; apply elem_of_app in H2 as [H2|H2].
    + by apply Ha1.
    + by destruct (Hsep e1 e2 H1 H2) as (_ & ? & _).
    + by destruct (Hsep e2 e1 H2 H1) as (_ & _ & ?).
    + by apply Ha2.
Qed.

(** One level of a walk: the local calls, all fulfilled by [t], and then
    the sub-walks started at [t]. *)
Lemma barrier_level path now t keys local evs :
  (∀ e, e ∈ local →
        ev_path e = path ∧ ev_issued e = now
        ∧ ∃ t' v, ev_promise e = Some (t', Fulfilled v) ∧ t' ≤ t) →
  now ≤ t →
  forest path t keys evs →
  barrier path now (local ++ evs).
Proof.
  intros Hl Hnow (Hm & Ht & Ha). split; [|split].
  - intros e He. apply elem_of_app in He as [He|He].
    + destruct (Hl e He) as (Hp & Hi & _). split; [|split]; [|lia|done].
      exists []. by rewrite app_nil_r.
    + destruct (Hm e He) as (k & ks & _ & Hp & Hi). split; [|split]; [eauto|lia|].
      rewrite Hp. intros E. by apply path_extension_ne in E.
  - intros e1 e2 H1 H2 E.
    apply elem_of_app in H1 as [H1|H1]; apply elem_of_app in H2 as [H2|H2].
    + destruct (Hl e1 H1) as (_ & ? & _), (Hl e2 H2) as (_ & ? & _). congruence.
    + destruct (Hl e1 H1) as (Hp & _), (Hm e2 H2) as (k & ks & _ & Hq & _).
      rewrite Hp, Hq in E. symmetry in E. by apply path_extension_ne in E.
    + destruct (Hl e2 H2) as (Hp & _), (Hm e1 H1) as (k & ks & _ & Hq & _).
      rewrite Hp, Hq in E. by apply path_extension_ne in E.
    + by apply Ht.
  - intros e1 e2 H1 H2 E.
    apply elem_of_app in H1 as [H1|H1]; apply elem_of_app in H2 as [H2|H2].
    + destruct (Hl e1 H1) as (Hp & _), (Hl e2 H2) as (Hq & _).
      rewrite Hp, Hq in E. by apply not_below_self in E.
    + destruct (Hl e1 H1) as (_ & _ & t' & v & Hf & Hle).
      destruct (Hm e2 H2) as (_ & _ & _ & _ & Hi).
      exists t', v. split; [done|lia].
    + destruct (Hl e2 H2) as (Hp & _), (Hm e1 H1) as (k & ks & _ & Hq & _).
      rewrite Hp, Hq in E. by apply not_below_up in E.
    + by apply Ha.
Qed.

End Barriers.

(** ** Facts about the asynchronous walks *)

Section WalkFacts.
Context `{VL : ViewLayer}.
Implicit Types (h : gmap loc Router) (this : loc) (path : list string).

Lemma queryViewports_elem h fn this path now e :
  e ∈ (queryViewports h fn this path now).1 ↔
  ∃ nm port, ports_of h this !! nm = Some port
             ∧ e = mkEvent (fn port nm now).1.1 path this nm port
                           (fn port nm now).1.2 now (fn port nm now).2.
Proof.
  unfold queryViewports. simpl. rewrite list_elem_of_fmap. split.
  - intros ([nm port] & -> & Hin). apply elem_of_map_to_list in Hin.
    exists nm, port. split; [done|]. by destruct (fn port nm now) as [[??]?].
  - intros (nm & port & Hin & ->). exists (nm, port).
    split; [by destruct (fn port nm now) as [[??]?]|].
    by apply elem_of_map_to_list.
Qed.

Lemma queryViewports_promise h fn this path now :
  (queryViewports h fn this path now).2
  = promise_all now (ev_promise <$> (queryViewports h fn this path now).1).
Proof. done. Qed.

Lemma queryViewports_local h fn this path now e :
  e ∈ (queryViewports h fn this path now).1 →
  ev_path e = path ∧ ev_issued e = now.
Proof. rewrite queryViewports_elem. by intros (nm & port & _ & ->). Qed.

Lemma queryViewports_fulfilled h fn this path now t v e :
  (queryViewports h fn this path now).2 = Some (t, Fulfilled v) →
  e ∈ (queryViewports h fn this path now).1 →
  ev_path e = path ∧ ev_issued e = now
  ∧ ∃ t' v', ev_promise e = Some (t', Fulfilled v') ∧ t' ≤ t.
Proof.
  rewrite queryViewports_promise. intros Hp He.
  destruct (queryViewports_local _ _ _ _ _ _ He) as [? ?].
  split; [done|]. split; [done|].
  apply promise_all_fulfilled in Hp as [_ Hp]. apply Hp.
  apply list_elem_of_fmap. eauto.
Qed.

Lemma queryViewports_time h fn this path now t v :
  (queryViewports h fn this path now).2 = Some (t, Fulfilled v) → now ≤ t.
Proof.
  rewrite queryViewports_promise. intros Hp.
  by apply promise_all_fulfilled in Hp as [? _].
Qed.

Lemma activatePorts_unfold h this i path now :
  activatePorts h this i path now =
  let '(evs, p) := queryViewports h (activate_fn i) this path now in
  match p with
  | Some (t, Fulfilled _) =>
      let '(evs', ps) :=
        spawn (λ vp child,
                 rc ← router child;
                 Some (activatePorts h rc child (path ++ [vp]) t))
              (viewports i) in
      (evs ++ evs', spawned_all t ps)
  | _ => (evs, p)
  end.
Proof. by destruct i. Qed.

Lemma distinct_keys_unfold i :
  distinct_keys i ↔
  NoDup (viewports i).*1 ∧ Forall (λ kc, distinct_keys kc.2) (viewports i).
Proof.
  destruct i as [c vs rt u]. simpl.
  assert (∀ l : list (string * Instruction),
            (fix all (vs : list (string * Instruction)) : Prop :=
               match vs with
               | [] => True
               | (_, child) :: vs' => distinct_keys child ∧ all vs'
               end) l ↔ Forall (λ kc, distinct_keys kc.2) l) as H.
  { induction l as [|[k x] l IH]; simpl.
    - split; [constructor|done].
    - rewrite Forall_cons. simpl. by rewrite IH. }
  by rewrite H.
Qed.

Lemma distinct_keysb_sound i : distinct_keysb i = true → distinct_keys i.
Proof.
  induction i as [c vs rt u IH] using Instruction_nested_ind.
  intros H. apply distinct_keys_unfold. simpl in *.
  apply andb_prop in H as [Hnd Hall]. split; [by apply bool_decide_eq_true_1 in Hnd|]. clear Hnd.
  induction IH as [|[k x] vs' Hx _ IHvs]; [constructor|].
  simpl in Hall. apply andb_prop in Hall as [Hk Hall].
  constructor; [by apply Hx|by apply IHvs].
Qed.

Lemma spawn_forest {X : Type}
    (f : string → X → option (list Event * Promise)) path t vs :
  NoDup vs.*1 →
  Forall (λ kx, ∀ es p, f kx.1 kx.2 = Some (es, p) →
                        barrier (path ++ [kx.1]) t es) vs →
  forest path t vs.*1 (spawn f vs).1.
Proof.
  induction vs as [|[k x] vs IH]; simpl; intros Hnd Hall.
  - apply forest_nil.
  - apply NoDup_cons in Hnd as [Hk Hnd].
    apply Forall_cons in Hall as [Hx Hall]. simpl in Hx.
    destruct (f k x) as [[e1 p1]|] eqn:Hf; simpl; [|apply forest_nil].
    specialize (IH Hnd Hall).
    destruct (spawn f vs) as [e2 ps]. simpl in *.
    apply forest_cons; eauto.
Qed.

(** The level barrier of [activatePorts]. *)
Lemma activatePorts_barrier i : distinct_keys i →
  ∀ h this path now, barrier path now (activatePorts h this i path now).1.
Proof.
  induction i as [c vs rt u IH] using Instruction_nested_ind.
  intros Hd h this path now. rewrite activatePorts_unfold.
  apply distinct_keys_unfold in Hd as [Hnd Hsub]. simpl in Hnd, Hsub.
  pose proof (queryViewports_local h (activate_fn (mkInstruction c vs rt u))
                this path now) as Hloc.
  pose proof (queryViewports_fulfilled h (activate_fn (mkInstruction c vs rt u))
                this path now) as Hful.
  pose proof (queryViewports_time h (activate_fn (mkInstruction c vs rt u))
                this path now) as Htime.
  destruct (queryViewports _ _ _ _ _) as [evs p]. simpl in *.
  destruct p as [[t [v|r]]|]; simpl; try by apply barrier_local.
  pose proof (spawn_forest
    (λ vp child, rc ← router child;
                 Some (activatePorts h rc child (path ++ [vp]) t))
    path t vs Hnd) as Hforest.
  destruct (spawn _ vs) as [evs' ps]. simpl in *.
  eapply barrier_level;
    [intros e He; by apply (Hful t v e)|by eapply Htime|apply Hforest].
  clear -IH Hsub. induction IH as [|[k x] vs' Hx _ IHvs]; [constructor|].
  apply Forall_cons in Hsub as [Hdx Hsub]. constructor; [|by apply IHvs].
  simpl in *. intros es p E.
  destruct (router x) as [rc|]; simplify_eq/=.
  specialize (Hx Hdx h rc (path ++ [k]) t). by rewrite E in Hx.
Qed.

(** *** [traversePorts] *)

(** The two ways a level of [traversePorts] can go. *)
Lemma traversePorts_S fuel h fn this path now evs p :
  traversePorts (S fuel) h fn this path now = Some (evs, p) →
  (∃ t v subs,
      (queryViewports h fn this path now).2 = Some (t, Fulfilled v)
      ∧ Forall2 (λ kc sub,
                   traversePorts fuel h fn kc.2 (path ++ [kc.1]) t = Some sub)
                (map_to_list (children_of h this)) subs
      ∧ evs = (queryViewports h fn this path now).1 ++ mjoin subs.*1
      ∧ p = promise_all t subs.*2)
  ∨ ((∀ t v, (queryViewports h fn this path now).2 ≠ Some (t, Fulfilled v))
     ∧ evs = (queryViewports h fn this path now).1
     ∧ p = (queryViewports h fn this path now).2).
Proof.
  cbn [traversePorts].
  destruct (queryViewports h fn this path now) as [local pl]. cbn [fst snd].
  destruct pl as [[t [v|r]]|]; try (intros [= <- <-]; by right).
  destruct (mapM (λ '(nm, child),
                    traversePorts fuel h fn child (path ++ [nm]) t)
                 (map_to_list (children_of h this)))
    as [subs|] eqn:Hm; simpl; [|done].
  intros [= <- <-]. left. exists t, v, subs. split; [done|].
  split; [|done]. apply mapM_Some in Hm.
  eapply Forall2_impl; [exact Hm|]. by intros [??] ?.
Qed.



Lemma children_of_Some h this k c :
  children_of h this !! k = Some c →
  ∃ r, h !! this = Some r ∧ children r !! k = Some c.
Proof.
  unfold children_of. destruct (h !! this) as [r|]; [eauto|].
  by rewrite lookup_empty.
Qed.

(** Every call is made on a port of the router that the path leads to in
    the live router tree, and it is the call [fn] describes. *)
Lemma traversePorts_calls fuel : ∀ h fn this path now evs p,
  traversePorts fuel h fn this path now = Some (evs, p) →
  ∀ e, e ∈ evs →
    ∃ ks, ev_path e = path ++ ks
          ∧ router_at h this ks = Some (ev_router e)
          ∧ ports_of h (ev_router e) !! ev_port e = Some (ev_view e)
          ∧ (ev_cap e, ev_arg e, ev_promise e)
            = fn (ev_view e) (ev_port e) (ev_issued e).
Proof.
  induction fuel as [|fuel IH]; intros h fn this path now evs p H e He; [done|].
  assert (e ∈ (queryViewports h fn this path now).1 →
          ∃ ks, ev_path e = path ++ ks
                ∧ router_at h this ks = Some (ev_router e)
                ∧ ports_of h (ev_router e) !! ev_port e = Some (ev_view e)
                ∧ (ev_cap e, ev_arg e, ev_promise e)
                  = fn (ev_view e) (ev_port e) (ev_issued e)) as Hlocal.
  { intros Hin. apply queryViewports_elem in Hin as (nm & port & Hport & ->).
    exists []. rewrite app_nil_r. simpl. repeat split; [done|].
    by destruct (fn port nm now) as [[??]?]. }
  apply traversePorts_S in H
    as [(t & v & subs & Hp & Hsubs & -> & _)|(_ & -> & _)]; [|auto].
  apply elem_of_app in He as [He|He]; [auto|].
  apply list_elem_of_join in He as (es & He & Hes).
  apply list_elem_of_fmap in Hes as ([es' ps] & -> & Hsub).
  apply list_elem_of_lookup_1 in Hsub as [n Hn].
  destruct (Forall2_lookup_r _ _ _ _ _ Hsubs Hn) as ([k c] & Hkc & Hwalk).
  simpl in *.
  destruct (IH _ _ _ _ _ _ _ Hwalk e He) as (ks & Hpath & Hat & Hport & Hfn).
  exists (k :: ks). rewrite Hpath, <- app_assoc. split; [done|].
  split; [|done]. simpl.
  assert ((k, c) ∈ map_to_list (children_of h this)) as Hin
    by (apply list_elem_of_lookup; eauto).
  apply elem_of_map_to_list, children_of_Some in Hin as (r & -> & Hc).
  simpl. by rewrite Hc.
Qed.




End WalkFacts.

(** ** The walks, claim by claim *)

Section WalkClaims.
Context `{VL : ViewLayer}.
Implicit Types (h : gmap loc Router) (this : loc) (path : list string).

Lemma activatePorts_local h this i path now e :
  e ∈ (queryViewports h (activate_fn i) this path now).1 →
  e ∈ (activatePorts h this i path now).1.
Proof.
  rewrite activatePorts_unfold.
  destruct (queryViewports _ _ _ _ _) as [evs p]. cbn [fst snd]. intros He.
  destruct p as [[t [v|r]]|]; try done.
  destruct (spawn _ _) as [evs' ps]. apply elem_of_app. by left.
Qed.

Lemma spawn_elem {X : Type}
    (f : string → X → option (list Event * Promise)) vs k x es p e :
  Forall (λ kx, is_Some (f kx.1 kx.2)) vs →
  (k, x) ∈ vs → f k x = Some (es, p) → e ∈ es → e ∈ (spawn f vs).1.
Proof.
  induction vs as [|[k' x'] vs IH]; intros Hall Hin Hf He;
    [by apply elem_of_nil in Hin|].
  apply Forall_cons in Hall as [[[e1 p1] Hx] Hall]. simpl in *.
  rewrite Hx. specialize (IH Hall).
  destruct (spawn f vs) as [e2 ps]. simpl in *.
  apply elem_of_app. apply elem_of_cons in Hin as [[= <- <-]|Hin].
  - left. congruence.
  - right. by apply IH.
Qed.

(** Once the level of [this] is fulfilled, the ports of the router of
    every child instruction are activated at that time. *)
Lemma activatePorts_descends h this i path now t v vp child rc e :
  (queryViewports h (activate_fn i) this path now).2 = Some (t, Fulfilled v) →
  Forall (λ kc, is_Some (router kc.2)) (viewports i) →
  (vp, child) ∈ viewports i → router child = Some rc →
  e ∈ (queryViewports h (activate_fn child) rc (path ++ [vp]) t).1 →
  e ∈ (activatePorts h this i path now).1.
Proof.
  intros Hp Hall Hin Hrc He. rewrite activatePorts_unfold.
  destruct (queryViewports h (activate_fn i) this path now) as [evs p].
  cbn [fst snd] in *. subst p.
  pose proof (spawn_elem
    (λ vp child, rc ← router child;
                 Some (activatePorts h rc child (path ++ [vp]) t))
    (viewports i) vp child
    (activatePorts h rc child (path ++ [vp]) t).1
    (activatePorts h rc child (path ++ [vp]) t).2 e) as Hs.
  destruct (spawn _ _) as [evs' ps]. cbn [fst snd] in *.
  apply elem_of_app. right. apply Hs.
  - eapply Forall_impl; [exact Hall|]. intros [k x] [rx Hrx]. simpl in *.
    rewrite Hrx. simpl. eauto.
  - done.
  - rewrite Hrc. simpl. by destruct (activatePorts _ _ _ _ _).
  - by apply activatePorts_local.
Qed.

(** C5, as amended: [activatePorts(instruction)] activates every port
    registered on the router with [instruction.viewports[name]]; the
    activations of one level of the walk are issued together; once they
    are all fulfilled the ports of each child instruction's router are
    activated; and an activation further down a branch is issued only
    after every activation above it on that branch has been fulfilled.
    Nothing orders two different branches against each other. *)
Theorem activatePorts_level_barrier h this i path now :
  distinct_keysb i = true →
  (∀ nm port, ports_of h this !! nm = Some port →
     mkEvent Activate path this nm port (viewport_get (viewports i) nm) now
             (promise_of_reply now
                (activate port (viewport_get (viewports i) nm) now))
     ∈ (activatePorts h this i path now).1)
  ∧ (∀ t v vp child rc nm port,
       (queryViewports h (activate_fn i) this path now).2
         = Some (t, Fulfilled v) →
       Forall (λ kc, is_Some (router kc.2)) (viewports i) →
       (vp, child) ∈ viewports i → router child = Some rc →
       ports_of h rc !! nm = Some port →
       mkEvent Activate (path ++ [vp]) rc nm port
               (viewport_get (viewports child) nm) t
               (promise_of_reply t
                  (activate port (viewport_get (viewports child) nm) t))
       ∈ (activatePorts h this i path now).1)
  ∧ issued_together (activatePorts h this i path now).1
  ∧ ancestors_first (activatePorts h this i path now).1.
Proof.
  intros Hd%distinct_keysb_sound. split; [|split].
  - intros nm port Hport. apply activatePorts_local.
    apply queryViewports_elem. by exists nm, port.
  - intros t v vp child rc nm port Hp Hall Hin Hrc Hport.
    eapply activatePorts_descends; [done..|].
    apply queryViewports_elem. by exists nm, port.
  - by destruct (activatePorts_barrier i Hd h this path now) as (_ & ? & ?).
Qed.


(** On a well-shaped store the walk over the live router tree comes to an
    end. *)
Lemma traversePorts_total {G : Type} `{Gr : Grammar G} (w : World) fn :
  tree_shaped w →
  ∀ fuel this path now, next_loc w - this < fuel →
    is_Some (traversePorts fuel (heap w) fn this path now).
Proof.
  intros [Hb Hch].
  induction fuel as [|fuel IH]; intros this path now Hf; [lia|].
  cbn [traversePorts].
  destruct (queryViewports (heap w) fn this path now) as [evs p].
  destruct p as [[t [v|r]]|]; eauto.
  destruct (mapM (λ '(nm, child),
                    traversePorts fuel (heap w) fn child (path ++ [nm]) t)
                 (map_to_list (children_of (heap w) this)))
    as [subs|] eqn:Hm; simpl; [eauto|].
  exfalso. assert (is_Some (@None (list (list Event * Promise)))) as [? ?];
    [|done].
  rewrite <- Hm. apply mapM_is_Some, Forall_forall. intros [k c] Hin.
  apply elem_of_map_to_list, children_of_Some in Hin as (r & Hr & Hc).
  destruct (Hch _ _ _ _ Hr Hc) as [Hlt _]. apply Hb in Hr.
  simpl. apply IH. lia.
Qed.

End WalkClaims.

Section TreeBuilderClaim.
Context {G : Type} `{Gr : Grammar G}.

(** X19: on an instruction tree in which no component is named like a
    member of [Object.prototype], [makeDescendantRouters(instruction)] is a
    plain walk (it returns no promise) over the whole instruction tree; it
    changes nothing but the [router] fields below the root, and afterwards
    every child instruction, at every depth, holds the router that
    [parent.router.childRouter(child.component)] returns: the router kept
    under the child's component name, not under its viewport name. *)
Theorem makeDescendantRouters_assigns (gs : gref → G) ops i this r :
  router i = Some this →
  heap (run (empty_world gs) ops) !! this = Some r →
  plain_components i = true →
  ∃ w' i', makeDescendantRouters (run (empty_world gs) ops) i = Some (w', i')
           ∧ router i' = Some this
           ∧ erase i' = erase i
           ∧ routed w' i'.
Proof.
  intros Hrt Hr Hplain. unfold makeDescendantRouters.
  apply router_Stored in Hrt. rewrite Hrt.
  destruct (traverseInstructionSync_spec i (run (empty_world gs) ops) this)
    as (w' & i' & Hwalk & _ & _ & Hrt' & He & Hrouted);
    [apply tree_shaped_run|eauto|done|].
  by exists w', i'.
Qed.

End TreeBuilderClaim.

(** ** The dashboard, evaluated *)

(** C5, as stated, fails: on the left branch the viewport of the [avatar]
    router, three levels below the root's, is activated at time 3, while on
    the right branch the viewport of the [comments] router, two levels below
    the root's, is activated only at time 11, once the slow view above it
    has settled. *)
Lemma activatePorts_levels_out_of_order :
  distinct_keysb dashboard_routed = true
  ∧ (∃ e1 e2, dash_events !! 6 = Some e1 ∧ dash_events !! 4 = Some e2
              ∧ ev_path e1 = ["right"; "detail"]
              ∧ ev_path e2 = ["left"; "detail"; "badge"]
              ∧ ev_issued e1 = 11 ∧ ev_issued e2 = 3)
  ∧ ¬ levels_in_order dash_events.
Proof.
  split; [|split].
  - vm_compute. reflexivity.
  - eexists _, _. split; [vm_compute; reflexivity|].
    split; [vm_compute; reflexivity|]. split; [vm_compute; reflexivity|].
    split; [vm_compute; reflexivity|]. split; vm_compute; reflexivity.
  - intros H.
    assert (∃ e1 e2, dash_events !! 6 = Some e1 ∧ dash_events !! 4 = Some e2
                     ∧ length (ev_path e2) = S (length (ev_path e1))
                     ∧ ev_issued e2 < ev_issued e1) as (e1 & e2 & H1 & H2 & Hl & Hlt).
    { eexists _, _. split; [vm_compute; reflexivity|].
      split; [vm_compute; reflexivity|]. split; [vm_compute; reflexivity|].
      vm_compute. lia. }
    apply list_elem_of_lookup_2 in H1, H2.
    specialize (H e1 e2 H1 H2 Hl). lia.
Qed.

(** The veto of the view registered under [guard] in the [users] router:
    the walk is rejected, nothing below [users] is asked, and the [posts]
    branch goes on regardless. *)
Example canDeactivatePorts_veto_stops_descent :
  ∃ evs, canDeactivatePorts 9 (heap dash_guarded) 0 dashboard 0
         = Some (evs, Some (1, Rejected VUndefined))
         ∧ (λ e, (ev_path e, ev_port e, ev_issued e)) <$> evs
           = [([], "right", 0); ([], "left", 0);
              (["users"], "guard", 1); (["users"], "detail", 1);
              (["posts"], "detail", 1); (["posts"; "comments"], "default", 11)].
Proof.
  eexists. split; [vm_compute; reflexivity|]. vm_compute. reflexivity.
Qed.

(** The two sibling viewports: the child routers sit under the component
    names [users] and [posts]; there is none under [left] or [right]. *)
Example siblings_keyed_by_component :
  ∃ w' i', makeDescendantRouters siblings_start siblings = Some (w', i')
           ∧ router <$> viewport_own (viewports i') "left" = Some (Some 1)
           ∧ router <$> viewport_own (viewports i') "right" = Some (Some 2)
           ∧ children <$> heap w' !! 0 = Some {[ "users" := 1; "posts" := 2 ]}.
Proof.
  eexists _, _. split; [vm_compute; reflexivity|].
  split; [vm_compute; reflexivity|]. split; vm_compute; reflexivity.
Qed.

(** ** The general statements at the worked examples *)

(** The guard while the navigation to [/] is in flight. *)
Lemma navigate_guard_is_noop_witness :
  ∃ w' v, navigate app_navigating 0 "/welcome"
            = Some (w', Settled (Fulfilled v))
          ∧ log w' = log app_navigating ∧ heap w' = heap app_navigating
          ∧ grammars w' = grammars app_navigating
          ∧ next_loc w' = next_loc app_navigating.
Proof.
  apply (navigate_guard_is_noop app_navigating 0
           (mkRouter "/" None true ∅ ∅ 0 0 None None None) "/welcome").
  - vm_compute. reflexivity.
  - left. reflexivity.
Defined.

(** The guard after [/welcome] has been reached: the same URL again. *)
Lemma navigate_guard_resolves_undefined_witness :
  ∃ w', navigate app_arrived 0 "/welcome"
        = Some (w', Settled (Fulfilled VUndefined)).
Proof.
  apply (navigate_guard_resolves_undefined app_arrived 0
           (mkRouter "/" None false ∅ ∅ 0 0 (Some "/welcome") None None)
           "/welcome").
  - vm_compute. reflexivity.
  - right. reflexivity.
Defined.

(** A URL the route table does not know, on the fresh root router. *)
Lemma navigate_no_match_rejects_witness :
  ∃ w', navigate app_start 0 "/nowhere" = Some (w', Settled (Rejected VUndefined))
        ∧ heap w' = heap app_start ∧ grammars w' = grammars app_start
        ∧ next_loc w' = next_loc app_start
        ∧ log w' = CRecognize 0 "/nowhere" :: log app_start.
Proof.
  apply (navigate_no_match_rejects app_start 0
           (mkRouter "/" None false ∅ ∅ 0 0 None None None) "/nowhere").
  - vm_compute. reflexivity.
  - reflexivity.
  - discriminate.
  - vm_compute. reflexivity.
Defined.

(** [renavigate()] after a completed navigation. *)
Lemma renavigation_urls_never_assigned_witness :
  renavigate app_arrived 0 = Some (app_arrived, Settled (Fulfilled VUndefined)).
Proof.
  assert (heap app_arrived !! 0
          = Some (mkRouter "/" None false ∅ ∅ 0 0 (Some "/welcome") None None))
    as Hr by (vm_compute; reflexivity).
  exact (proj1 (proj2 (proj2 (proj2
           (renavigation_urls_never_assigned (λ _ : nat, app_routes)
              [OpNewRootRouter 0 0; OpNavigate 0 "/";
               OpSettle 0 welcome_at_root (Fulfilled VUndefined)]
              0 _ Hr))))).
Defined.

(** The child router [users] of the root router. *)
Lemma childRouter_memoized_witness :
  ∃ w1, childRouter app_start 0 (Some "users") = Some (w1, Stored 1)
        ∧ childRouter w1 0 (Some "users") = Some (w1, Stored 1)
        ∧ ∀ ops', childRouter (run w1 ops') 0 (Some "users")
                  = Some (run w1 ops', Stored 1).
Proof.
  assert (∃ w1, childRouter app_start 0 (Some "users") = Some (w1, Stored 1))
    as [w1 H] by (eexists; vm_compute; reflexivity).
  assert (inherited (default_name (Some "users")) = false) as Hplain
    by (vm_compute; reflexivity).
  exists w1. split; [exact H|].
  destruct (childRouter_memoized (λ _ : nat, app_routes) [OpNewRootRouter 0 0]
              0 (Some "users") w1 (Stored 1) Hplain H)
    as (l & Hl & H1 & _ & H3).
  injection Hl as <-.
  split; [exact H1|exact H3].
Defined.

(** The routers of the two sibling viewports. *)
Lemma makeDescendantRouters_assigns_witness :
  ∃ w' i', makeDescendantRouters siblings_start siblings = Some (w', i')
           ∧ router i' = Some 0
           ∧ erase i' = erase siblings
           ∧ routed w' i'.
Proof.
  apply (makeDescendantRouters_assigns
           (λ _ : nat, [("/users/posts", siblings)]) [OpNewRootRouter 0 0]
           siblings 0 (mkRouter "/" None false ∅ ∅ 0 0 None None None)).
  - reflexivity.
  - vm_compute. reflexivity.
  - vm_compute. reflexivity.
Defined.

(** The activation of the dashboard. *)
Lemma activatePorts_level_barrier_witness :
  issued_together dash_events ∧ ancestors_first dash_events.
Proof.
  assert (distinct_keysb dashboard_routed = true) as Hd
    by (vm_compute; reflexivity).
  destruct (activatePorts_level_barrier (heap dash_built) 0 dashboard_routed
              [] 0 Hd) as (_ & _ & Ht & Ha).
  split; [exact Ht|exact Ha].
Defined.

(** ** More on the navigation state machine *)

Section EngineExtras.
Context {G : Type} `{Gr : Grammar G}.
Implicit Types (w : World) (this : loc) (r : Router) (url : string).

Lemma set_navigating_idle r :
  navigating r = false → set_navigating false (set_navigating true r) = r.
Proof. destruct r. simpl. by intros ->. Qed.

Lemma reachable_no_target (gs : gref → G) ops this r :
  heap (run (empty_world gs) ops) !! this = Some r →
  no_renavigation_target r.
Proof.
  intros Hr.
  assert (all_routers no_renavigation_target (run (empty_world gs) ops)) as Hall.
  { apply run_closed; [apply no_renavigation_target_closed|].
    intros l r0. simpl. by rewrite lookup_empty. }
  by apply (Hall this).
Qed.

(** A navigation from start to fulfilment, with nothing in between. *)
Lemma navigate_round w this r url i v :
  heap w !! this = Some r →
  navigating r = false →
  lastNavigatedUrl r ≠ Some url →
  g_recognize (grammars w (registry r)) url = Some i →
  ∃ w1 w2,
    navigate w this url
      = Some (w1, AwaitsPipeline (pipeline r) (set_router (Some this) i))
    ∧ heap w1 = <[this := set_navigating true r]> (heap w)
    ∧ log w1 = CProcess (pipeline r) (set_router (Some this) i)
                 :: CRecognize (registry r) url :: log w
    ∧ navigate_settle w1 this (set_router (Some this) i) (Fulfilled v)
      = Some (w2, Fulfilled (VStr (canonicalUrl i)))
    ∧ heap w2 = <[this := set_lastNavigatedUrl (Some (canonicalUrl i)) r]> (heap w)
    ∧ log w2 = log w1
    ∧ grammars w2 = grammars w.
Proof.
  intros Hr Hn Hu Hi.
  rewrite (navigate_past_guard w this r url Hr Hn Hu), Hi.
  eexists _, _. split; [done|].
  assert (heap (add_call (CProcess (pipeline r) (set_router (Some this) i))
            (_startNavigating (add_call (CRecognize (registry r) url) w) this))
          = <[this := set_navigating true r]> (heap w)) as Hh1.
  { simpl. unfold _startNavigating, update. simpl. by rewrite Hr. }
  split; [exact Hh1|]. split.
  { simpl. unfold _startNavigating. by rewrite update_log. }
  unfold navigate_settle. rewrite Hh1, lookup_insert_eq. simpl.
  split; [done|]. split; [|split].
  - unfold _finishNavigating, update. simpl.
    unfold _startNavigating, update. simpl. rewrite Hr. simpl.
    rewrite lookup_insert_eq. simpl. rewrite lookup_insert_eq. simpl.
    rewrite !insert_insert_eq. by rewrite set_navigating_idle.
  - unfold _finishNavigating. by rewrite !update_log.
  - unfold _finishNavigating, _startNavigating.
    rewrite !update_grammars. simpl. by rewrite update_grammars.
Qed.

(** X1: a navigation that passes the guard, is recognised and whose
    pipeline is fulfilled.  [recognize] and [process] are each called once,
    the instruction handed to the pipeline has [this] as its router, the
    router is [navigating] in between, and in the end it is idle again with
    the canonical URL as [lastNavigatedUrl] and nothing else changed; the
    promise carries the canonical URL whatever the pipeline was fulfilled
    with. *)
Theorem navigate_completes w this r url i v :
  heap w !! this = Some r →
  navigating r = false →
  lastNavigatedUrl r ≠ Some url →
  g_recognize (grammars w (registry r)) url = Some i →
  ∃ w1 w2,
    navigate w this url
      = Some (w1, AwaitsPipeline (pipeline r) (set_router (Some this) i))
    ∧ heap w1 = <[this := set_navigating true r]> (heap w)
    ∧ log w1 = CProcess (pipeline r) (set_router (Some this) i)
                 :: CRecognize (registry r) url :: log w
    ∧ navigate_settle w1 this (set_router (Some this) i) (Fulfilled v)
      = Some (w2, Fulfilled (VStr (canonicalUrl i)))
    ∧ heap w2 = <[this := set_lastNavigatedUrl (Some (canonicalUrl i)) r]> (heap w)
    ∧ log w2 = log w1.
Proof.
  intros Hr Hn Hu Hi.
  destruct (navigate_round w this r url i v Hr Hn Hu Hi)
    as (w1 & w2 & ? & ? & ? & ? & ? & ? & _).
  by exists w1, w2.
Qed.

(** X2: the no-op guard goes by the canonical URL.  After a completed
    navigation to [url], [navigate(canonicalUrl)] does nothing, while
    [navigate(url)] for a [url] that is only an alias of the canonical URL
    (a redirect) is recognised and handed to the pipeline once more. *)
Theorem navigate_again w this r url i v :
  heap w !! this = Some r →
  navigating r = false →
  lastNavigatedUrl r ≠ Some url →
  g_recognize (grammars w (registry r)) url = Some i →
  ∃ w1 w2,
    navigate w this url
      = Some (w1, AwaitsPipeline (pipeline r) (set_router (Some this) i))
    ∧ navigate_settle w1 this (set_router (Some this) i) (Fulfilled v)
      = Some (w2, Fulfilled (VStr (canonicalUrl i)))
    ∧ navigate w2 this (canonicalUrl i) = Some (w2, Settled (Fulfilled VUndefined))
    ∧ (url ≠ canonicalUrl i →
       ∃ w3, navigate w2 this url
             = Some (w3, AwaitsPipeline (pipeline r) (set_router (Some this) i))
             ∧ log w3 = CProcess (pipeline r) (set_router (Some this) i)
                          :: CRecognize (registry r) url :: log w2).
Proof.
  intros Hr Hn Hu Hi.
  destruct (navigate_round w this r url i v Hr Hn Hu Hi)
    as (w1 & w2 & H1 & _ & _ & H2 & Hh2 & _ & Hg2).
  exists w1, w2. split; [done|]. split; [done|].
  assert (heap w2 !! this
          = Some (set_lastNavigatedUrl (Some (canonicalUrl i)) r)) as Hr2
    by (rewrite Hh2; apply lookup_insert_eq).
  split.
  - eapply navigate_guard; [exact Hr2|]. by right.
  - intros Hne.
    rewrite (navigate_past_guard w2 this _ url Hr2); simpl; [|done|congruence].
    rewrite Hg2, Hi. eexists. split; [done|]. simpl.
    unfold _startNavigating. by rewrite update_log.
Qed.

(** X3: the guard is per router, not per tree.  While one router is
    navigating, [navigate] on another idle router (its child, say) is
    accepted: both are then [navigating] and two pipeline runs are in
    flight. *)
Theorem navigating_is_per_router w p c rp rc url url' ip ic :
  p ≠ c →
  heap w !! p = Some rp → heap w !! c = Some rc →
  navigating rp = false → navigating rc = false →
  lastNavigatedUrl rp ≠ Some url → lastNavigatedUrl rc ≠ Some url' →
  g_recognize (grammars w (registry rp)) url = Some ip →
  g_recognize (grammars w (registry rc)) url' = Some ic →
  ∃ w1 w2,
    navigate w p url
      = Some (w1, AwaitsPipeline (pipeline rp) (set_router (Some p) ip))
    ∧ navigate w1 c url'
      = Some (w2, AwaitsPipeline (pipeline rc) (set_router (Some c) ic))
    ∧ heap w2 !! p = Some (set_navigating true rp)
    ∧ heap w2 !! c = Some (set_navigating true rc)
    ∧ log w2 = CProcess (pipeline rc) (set_router (Some c) ic)
                 :: CRecognize (registry rc) url'
                 :: CProcess (pipeline rp) (set_router (Some p) ip)
                 :: CRecognize (registry rp) url :: log w.
Proof.
  intros Hpc Hp Hc Hnp Hnc Hup Huc Hip Hic.
  destruct (navigate_round w p rp url ip VUndefined Hp Hnp Hup Hip)
    as (w1 & _ & H1 & Hh1 & Hl1 & _).
  assert (grammars w1 = grammars w) as Hg1.
  { rewrite (navigate_past_guard w p rp url Hp Hnp Hup), Hip in H1.
    simplify_eq. simpl. unfold _startNavigating. by rewrite update_grammars. }
  assert (heap w1 !! c = Some rc) as Hc1
    by (rewrite Hh1, lookup_insert_ne; done).
  rewrite <- Hg1 in Hic.
  destruct (navigate_round w1 c rc url' ic VUndefined Hc1 Hnc Huc Hic)
    as (w2 & _ & H2 & Hh2 & Hl2 & _).
  exists w1, w2. split; [done|]. split; [done|]. split; [|split].
  - rewrite Hh2, lookup_insert_ne by done. rewrite Hh1. apply lookup_insert_eq.
  - rewrite Hh2. apply lookup_insert_eq.
  - by rewrite Hl2, Hl1.
Qed.

(** X4: on a store built by the router's own methods,
    [registerViewport(view, name)] calls no collaborator, hands back a
    resolved promise and writes nothing but the [ports] of the router it is
    called on.  Under any name but [__proto__] it puts [view] under [name]
    (under [default] when the name is left out), replacing what was there
    and leaving every other port as it was; under [__proto__] no port is
    registered and the router is as before. *)
Theorem registerViewport_registers (gs : gref → G) ops this r view nm :
  heap (run (empty_world gs) ops) !! this = Some r →
  ∃ w' r',
    registerViewport (run (empty_world gs) ops) this view nm
    = Some (w', Settled (Fulfilled VUndefined))
    ∧ heap w' = <[this := r']> (heap (run (empty_world gs) ops))
    ∧ r' = set_ports (ports r') r
    ∧ log w' = log (run (empty_world gs) ops)
    ∧ (default_name nm ≠ "__proto__" →
       ports r' = <[default_name nm := view]> (ports r)
       ∧ ports r' !! default_name nm = Some view
       ∧ ∀ k, k ≠ default_name nm → ports r' !! k = ports r !! k)
    ∧ (default_name nm = "__proto__" → r' = r).
Proof.
  intros Hr. set (w := run (empty_world gs) ops) in *.
  unfold registerViewport. rewrite Hr. simpl.
  set (r' := set_ports (js_set (default_name nm) view (ports r)) r).
  set (w1 := update this (set_ports (js_set (default_name nm) view (ports r))) w).
  assert (heap w1 = <[this := r']> (heap w)) as Hh
    by (unfold w1, update; by rewrite Hr).
  assert (heap w1 !! this = Some r') as Hr1
    by (rewrite Hh; apply lookup_insert_eq).
  exists w1, r'. split.
  - eapply renavigate_without_target; [exact Hr1|].
    destruct (reachable_no_target gs ops this r Hr). by split.
  - split; [exact Hh|]. split; [done|]. split; [apply update_log|].
    unfold r', js_set. simpl.
    destruct (String.eqb_spec (default_name nm) "__proto__") as [E|E]; split;
      try done.
    + intros _. by destruct r.
    + intros _. split; [done|]. split.
      * apply lookup_insert_eq.
      * intros k Hk. by apply lookup_insert_ne.
Qed.

(** X5: [config(mapping)] forwards the mapping to the grammar under the
    name of the router it is called on, and the grammar being shared, every
    router holding the same registry recognises URLs by the new
    configuration from then on; other grammar objects and the routers
    themselves are untouched, and no navigation is started. *)
Theorem config_reconfigures_shared_grammar (gs : gref → G) ops this r mapping :
  heap (run (empty_world gs) ops) !! this = Some r →
  ∃ w', config (run (empty_world gs) ops) this mapping
        = Some (w', Settled (Fulfilled VUndefined))
        ∧ heap w' = heap (run (empty_world gs) ops)
        ∧ log w' = CConfig (registry r) (name r) mapping
                     :: log (run (empty_world gs) ops)
        ∧ (∀ other url, registry other = registry r →
             (recognize w' other url).2
             = g_recognize
                 (g_config (grammars (run (empty_world gs) ops) (registry r))
                           (name r) mapping) url)
        ∧ (∀ g, g ≠ registry r →
             grammars w' g = grammars (run (empty_world gs) ops) g).
Proof.
  intros Hr. set (w := run (empty_world gs) ops) in *.
  unfold config. rewrite Hr. simpl.
  eexists. split.
  - eapply renavigate_without_target; [exact Hr|].
    by apply (reachable_no_target gs ops this r).
  - simpl. split; [done|]. split; [done|]. split.
    + intros other url ->. by rewrite decide_True.
    + intros g Hg. by rewrite decide_False.
Qed.

End EngineExtras.

(** ** More on the router tree *)

Section TreeExtras.
Context {G : Type} `{Gr : Grammar G}.
Implicit Types (w : World) (this : loc) (r : Router).

Lemma linked_later w w' :
  grows w w' →
  (∀ c rc', heap w' !! c = Some rc' →
     (∃ rc, heap w !! c = Some rc ∧ parent rc' = parent rc ∧ name rc' = name rc)
     ∨ match parent rc' with
       | None => name rc' = "/"
       | Some p => has_child w' p (name rc') c
       end) →
  linked w → linked w'.
Proof.
  intros Hg Hback Hl c rc' Hc.
  destruct (Hback c rc' Hc) as [(rc & Hrc & -> & ->)|?]; [|done].
  specialize (Hl c rc Hrc). destruct (parent rc); [|done].
  by eapply has_child_grows.
Qed.

Lemma linked_update w this f : frame f → linked w → linked (update this f w).
Proof.
  intros Hf. apply linked_later; [by apply grows_update|].
  intros c rc' Hc. left.
  apply update_cases in Hc as [[-> (rc & Hrc & ->)]|Hc]; [|eauto].
  exists rc. destruct (Hf rc) as ((-> & -> & _) & _). done.
Qed.

(** The [parent] and [name] fields and the [children] maps agree, whatever
    is called. *)
Lemma linked_closed : closed (λ w, tree_shaped w ∧ linked w).
Proof.
  pose proof tree_shaped_closed as [T1 T2 T3 T4 T5 T6].
  split.
  - intros w this b [??]. split; [by apply T1|].
    by apply linked_update; [apply frame_set_navigating|].
  - intros w this p [??]. split; [by apply T2|].
    by apply linked_update; [apply frame_set_ports|].
  - intros w this u [??]. split; [by apply T3|].
    by apply linked_update; [apply frame_set_lastNavigatedUrl|].
  - intros w gs cs [? Hl]. split; [by apply T4|]. exact Hl.
  - intros w this r nm [Hw Hl] Hr Hnm. split; [by apply T5|].
    eapply linked_later; [by apply grows_child| |exact Hl].
    destruct Hw as [Hb _]. pose proof (Hb _ _ Hr) as Hlt.
    unfold update, newChildRouter, newRouter. simpl.
    rewrite lookup_insert_ne by lia. rewrite Hr. simpl.
    intros c rc' Hc.
    destruct (decide (c = this)) as [->|Hc1].
    + rewrite lookup_insert_eq in Hc. simplify_eq. left. by exists r.
    + rewrite lookup_insert_ne in Hc by done.
      destruct (decide (c = next_loc w)) as [->|Hc2].
      * rewrite lookup_insert_eq in Hc. simplify_eq. right. simpl.
        eexists. simpl. rewrite lookup_insert_eq. split; [done|].
        simpl. apply lookup_insert_eq.
      * rewrite lookup_insert_ne in Hc by done. left. by exists rc'.
  - intros w g p [Hw Hl]. split; [by apply T6|].
    eapply linked_later; [by apply grows_newRootRouter| |exact Hl].
    simpl. intros c rc' Hc.
    destruct (decide (c = next_loc w)) as [->|Hc2].
    + rewrite lookup_insert_eq in Hc. simplify_eq. by right.
    + rewrite lookup_insert_ne in Hc by done. left. by exists rc'.
Qed.

Lemma linked_run (gs : gref → G) ops : linked (run (empty_world gs) ops).
Proof.
  apply (run_closed _ linked_closed ops (empty_world gs)). split.
  - apply tree_shaped_empty.
  - intros c rc. simpl. by rewrite lookup_empty.
Qed.

(** X6: on a store built by the router's own methods, a router sits under
    at most one parent and one key, and its [parent] and [name] fields say
    which: asking the parent for the child router of that name gives the
    router back and builds nothing.  A router without parent is a root,
    named [/], and is nobody's child. *)
Theorem parent_and_children_agree (gs : gref → G) ops c rc :
  heap (run (empty_world gs) ops) !! c = Some rc →
  match parent rc with
  | None =>
      name rc = "/"
      ∧ ∀ p k, ¬ has_child (run (empty_world gs) ops) p k c
  | Some p =>
      childRouter (run (empty_world gs) ops) p (Some (name rc))
      = Some (run (empty_world gs) ops, Stored c)
      ∧ ∀ p' k, has_child (run (empty_world gs) ops) p' k c →
                p' = p ∧ k = name rc
  end.
Proof.
  intros Hc. set (w := run (empty_world gs) ops) in *.
  pose proof (linked_run gs ops c rc Hc) as Hl. fold w in Hl.
  destruct (tree_shaped_run gs ops) as [_ Hch]. fold w in Hch.
  assert (∀ p' k, has_child w p' k c → parent rc = Some p' ∧ name rc = k) as Huniq.
  { intros p' k (r' & Hr' & Hk).
    destruct (Hch _ _ _ _ Hr' Hk) as (_ & rc0 & Hrc0 & ? & ? & _).
    by simplify_eq. }
  destruct (parent rc) as [p|] eqn:Hp.
  - split; [by apply has_child_childRouter|].
    intros p' k Hpk. destruct (Huniq p' k Hpk). by simplify_eq.
  - split; [done|]. intros p k Hpk. by destruct (Huniq p k Hpk).
Qed.

(** X7: on such a store, whatever is reached from a router by following
    [children] is an allocated router other than itself (the tree has no
    cycle) that holds the very grammar and pipeline objects of that
    router. *)
Theorem descendants_share_collaborators (gs : gref → G) ops this r path c :
  heap (run (empty_world gs) ops) !! this = Some r →
  router_at (heap (run (empty_world gs) ops)) this path = Some c →
  ∃ rc, heap (run (empty_world gs) ops) !! c = Some rc
        ∧ registry rc = registry r ∧ pipeline rc = pipeline r
        ∧ (path ≠ [] → c ≠ this).
Proof.
  set (w := run (empty_world gs) ops).
  destruct (tree_shaped_run gs ops) as [_ Hch]. fold w in Hch.
  assert (∀ path this r c, heap w !! this = Some r →
            router_at (heap w) this path = Some c →
            ∃ rc, heap w !! c = Some rc ∧ registry rc = registry r
                  ∧ pipeline rc = pipeline r ∧ this ≤ c
                  ∧ (path ≠ [] → this < c)) as Hgen.
  { clear this r path c.
    induction path as [|k path IH]; intros this r c Hr Hat; simpl in Hat.
    - simplify_eq. exists r. repeat split; [done|lia|done].
    - rewrite Hr in Hat. simpl in Hat.
      destruct (children r !! k) as [c1|] eqn:Hk; simpl in Hat; [|done].
      destruct (Hch _ _ _ _ Hr Hk) as (Hlt & r1 & Hr1 & _ & _ & Hg & Hp).
      destruct (IH c1 r1 c Hr1 Hat) as (rc & Hrc & Hg' & Hp' & Hle & _).
      exists rc. repeat split; [done|congruence|congruence|lia|lia]. }
  intros Hr Hat.
  destruct (Hgen path this r c Hr Hat) as (rc & ? & ? & ? & _ & Hlt).
  exists rc. repeat split; try done. intros Hne. specialize (Hlt Hne). lia.
Qed.

End TreeExtras.

(** ** More on the router tree builder *)

Section BuilderExtras.
Context {G : Type} `{Gr : Grammar G}.
Implicit Types (w : World) (this : loc) (i : Instruction).

(** The first loop looks at the component names only. *)
Lemma assignRouters_erase vs1 : ∀ vs2 w rt,
  map (λ kc, (kc.1, erase kc.2)) vs1 = map (λ kc, (kc.1, erase kc.2)) vs2 →
  assignRouters w rt vs1 = assignRouters w rt vs2.
Proof.
  induction vs1 as [|[k1 c1] vs1 IH]; intros [|[k2 c2] vs2] w rt E;
    simplify_eq/=; [done|].
  destruct rt as [this| |]; simpl; [|done..].
  assert (component c1 = component c2) as ->
    by (rewrite <- (erase_component c1), <- (erase_component c2); congruence).
  destruct (childRouter w this _) as [[w1 c]|]; simpl; [|done].
  by rewrite (IH vs2 w1 (Stored this)).
Qed.

Lemma descend_erase vs1 :
  Forall (λ kc, ∀ i2 w rt, erase kc.2 = erase i2 →
            traverseInstructionSync w rt kc.2 = traverseInstructionSync w rt i2)
         vs1 →
  ∀ vs2 w cs,
    map (λ kc, (kc.1, erase kc.2)) vs1 = map (λ kc, (kc.1, erase kc.2)) vs2 →
    descend traverseInstructionSync w vs1 cs
    = descend traverseInstructionSync w vs2 cs.
Proof.
  induction 1 as [|[k1 c1] vs1 Hx _ IH]; intros [|[k2 c2] vs2] w cs E;
    simplify_eq/=; [done|].
  destruct cs as [|c cs]; [done|].
  rewrite (Hx c2 w c) by done.
  destruct (traverseInstructionSync w c c2) as [[w1 child']|]; simpl;
    [|done].
  by rewrite (IH vs2 w1 cs).
Qed.

(** The walk ignores the routers an instruction arrives with below its
    root. *)
Lemma traverseInstructionSync_erase i1 : ∀ i2 w rt,
  erase i1 = erase i2 →
  traverseInstructionSync w rt i1 = traverseInstructionSync w rt i2.
Proof.
  induction i1 as [c1 vs1 rt1 u1 IH] using Instruction_nested_ind.
  intros [c2 vs2 rt2 u2] w rt E. simpl in E. injection E as -> Evs ->.
  simpl. rewrite (assignRouters_erase vs1 vs2 w rt Evs).
  destruct (assignRouters w rt vs2) as [[w1 cs]|]; simpl; [|done].
  by rewrite (descend_erase vs1 IH vs2 w1 cs Evs).
Qed.

Lemma assignRouters_routed w rp vs :
  Forall (λ kc, ∃ rc, router kc.2 = Some rc
                      ∧ childRouter w rp (Some (component kc.2))
                        = Some (w, Stored rc))
         vs →
  ∃ cs, assignRouters w (Stored rp) vs = Some (w, Stored <$> cs)
        ∧ Forall2 (λ kc c, router kc.2 = Some c) vs cs.
Proof.
  induction 1 as [|[k x] vs (rc & Hrc & Hc) _ (cs & Ha & Hall)]; simpl.
  - exists []. split; [done|constructor].
  - simpl in *. rewrite Hc. simpl. rewrite Ha. simpl.
    exists (rc :: cs). split; [done|]. by constructor.
Qed.

Lemma descend_routed w vs : ∀ cs,
  Forall2 (λ kc c, router kc.2 = Some c) vs cs →
  Forall (λ kc, traverseInstructionSync w (router_val kc.2) kc.2
                = Some (w, kc.2)) vs →
  descend traverseInstructionSync w vs (Stored <$> cs) = Some (w, vs).
Proof.
  induction vs as [|[k x] vs IH]; intros cs H2 H; [by destruct cs|].
  apply Forall2_cons_inv_l in H2 as (c & cs' & Hc & H2 & ->).
  apply Forall_cons in H as [Hx H]. simpl in *.
  apply router_Stored in Hc.
  rewrite <- Hc, Hx. simpl.
  change (list_fmap nat (Slot nat) Stored cs') with (Stored <$> cs').
  by rewrite (IH cs' H2 H).
Qed.

(** On an instruction that already carries the right routers the walk
    changes nothing. *)
Lemma traverseInstructionSync_routed w i :
  routed w i → traverseInstructionSync w (router_val i) i = Some (w, i).
Proof.
  induction i as [c vs rt u IH] using Instruction_nested_ind.
  intros Hrt. apply routed_unfold in Hrt.
  cbn [viewports router_val] in *.
  destruct vs as [|kc vs]; [done|].
  assert (∃ rp, rt = Stored rp) as [rp ->].
  { apply Forall_cons in Hrt as [[(rp & rc & Hrp & _) _] _].
    apply router_Stored in Hrp. eauto. }
  remember (kc :: vs) as vs0 eqn:Evs. clear Evs kc vs.
  destruct (assignRouters_routed w rp vs0) as (cs & Ha & H2).
  { eapply Forall_impl; [exact Hrt|]. simpl.
    intros kc' [(rp' & rc & ? & ? & ?) _]. simplify_eq. eauto. }
  cbn [traverseInstructionSync viewports]. rewrite Ha.
  cbn [mbind option_bind].
  rewrite (descend_routed w vs0 cs H2); [done|].
  clear -IH Hrt. induction IH as [|kc' vs' Hx _ IHvs]; [constructor|].
  apply Forall_cons in Hrt as [[_ Hr] Hrt]. constructor; [by apply Hx|].
  by apply IHvs.
Qed.

Lemma routed_descendants w i :
  routed w i → ∀ p, p ∈ descendants i → routed w p.
Proof.
  induction i as [c vs rt u IH] using Instruction_nested_ind.
  intros Hrt p Hp. apply routed_unfold in Hrt. simpl in *.
  induction IH as [|[k x] vs' Hx _ IHvs]; simpl in Hp;
    [by apply elem_of_nil in Hp|].
  apply Forall_cons in Hrt as [[_ Hr] Hrt]. simpl in *.
  apply elem_of_cons in Hp as [->|Hp]; [done|].
  apply elem_of_app in Hp as [Hp|Hp]; [by apply Hx|by apply IHvs].
Qed.

(** X8: building the routers twice builds them once.  On an instruction
    tree in which no component is named like a member of
    [Object.prototype], after [makeDescendantRouters] has run, running it
    again, on the instruction it
    left behind or on a fresh instruction of the same shape (the next
    navigation to that route), allocates nothing, changes no router and
    assigns the very same routers. *)
Theorem makeDescendantRouters_reuses (gs : gref → G) ops i fresh this r :
  router i = Some this →
  heap (run (empty_world gs) ops) !! this = Some r →
  plain_components i = true →
  erase fresh = erase i → router fresh = Some this →
  ∃ w' i', makeDescendantRouters (run (empty_world gs) ops) i = Some (w', i')
           ∧ makeDescendantRouters w' i' = Some (w', i')
           ∧ makeDescendantRouters w' fresh = Some (w', i').
Proof.
  intros Hrt Hr Hplain He Hrf. unfold makeDescendantRouters.
  apply router_Stored in Hrt, Hrf. rewrite Hrt, Hrf.
  destruct (traverseInstructionSync_spec i (run (empty_world gs) ops) this)
    as (w' & i' & Hwalk & _ & _ & Hrt' & He' & Hrouted);
    [apply tree_shaped_run|eauto|done|].
  exists w', i'. split; [done|].
  pose proof (traverseInstructionSync_routed w' i' Hrouted) as Hfix.
  apply router_Stored in Hrt'. rewrite Hrt' in *. split; [done|].
  rewrite (traverseInstructionSync_erase fresh i' w' (Stored this)); [done|].
  congruence.
Qed.

(** X9: on an instruction tree in which no component is named like a
    member of [Object.prototype], after [makeDescendantRouters] every child
    instruction carries a Router object, and at every depth of the tree two
    viewports of the same instruction hold the same router exactly when
    they show the same component. *)
Theorem siblings_share_router_by_component (gs : gref → G) ops i this r :
  router i = Some this →
  heap (run (empty_world gs) ops) !! this = Some r →
  plain_components i = true →
  ∃ w' i', makeDescendantRouters (run (empty_world gs) ops) i = Some (w', i')
           ∧ ∀ p, p = i' ∨ p ∈ descendants i' →
               ∀ v1 c1 v2 c2,
                 (v1, c1) ∈ viewports p → (v2, c2) ∈ viewports p →
                 is_Some (router c1)
                 ∧ (router c1 = router c2 ↔ component c1 = component c2).
Proof.
  intros Hrt Hr Hplain. unfold makeDescendantRouters.
  apply router_Stored in Hrt. rewrite Hrt.
  destruct (traverseInstructionSync_spec i (run (empty_world gs) ops) this)
    as (w' & i' & Hwalk & [_ Hch] & _ & Hrt' & He' & Hrouted);
    [apply tree_shaped_run|eauto|done|].
  exists w', i'. split; [done|].
  intros p Hp v1 c1 v2 c2 H1 H2.
  assert (routed w' p) as Hrp.
  { destruct Hp as [->|Hp]; [done|]. by eapply routed_descendants. }
  apply routed_unfold in Hrp. rewrite Forall_forall in Hrp.
  destruct (Hrp _ H1) as [(rp & rc1 & Hp1 & Hr1 & Hc1) _].
  destruct (Hrp _ H2) as [(rp' & rc2 & Hp2 & Hr2 & Hc2) _].
  simpl in *. simplify_eq.
  apply has_child_childRouter in Hc1 as (rr & Hrr & Hk1).
  apply has_child_childRouter in Hc2 as (rr' & Hrr' & Hk2).
  simplify_eq. rewrite Hr1, Hr2. split; [eauto|]. split.
  - intros [= <-].
    destruct (Hch _ _ _ _ Hrr Hk1) as (_ & ra & Hra & _ & Hn1 & _).
    destruct (Hch _ _ _ _ Hrr Hk2) as (_ & rb & Hrb & _ & Hn2 & _).
    simplify_eq. congruence.
  - intros E. rewrite E in Hk1. congruence.
Qed.

End BuilderExtras.

(** ** More on promises and sub-walks *)

Lemma first_rejection_fulfilled ps :
  Forall (λ p, ∃ t v, p = Some (t, Fulfilled v)) ps → first_rejection ps = None.
Proof.
  induction 1 as [|p ps (t & v & ->) _ IH]; simpl; [done|]. by rewrite IH.
Qed.

(** [Promise.all] over promises that are all fulfilled is fulfilled. *)
Lemma promise_all_of_fulfilled now ps :
  Forall (λ p, ∃ t v, p = Some (t, Fulfilled v)) ps →
  ∃ t v, promise_all now ps = Some (t, Fulfilled v).
Proof.
  intros H. unfold promise_all. rewrite (first_rejection_fulfilled ps H).
  assert (is_Some (mapM fulfilment ps)) as [tvs ->]; [|simpl; eauto].
  apply mapM_is_Some. eapply Forall_impl; [exact H|].
  intros p (t & v & ->). simpl. eauto.
Qed.

Lemma promise_all_unfulfilled now ps p :
  p ∈ ps → (∀ t v, p ≠ Some (t, Fulfilled v)) →
  ∀ t v, promise_all now ps ≠ Some (t, Fulfilled v).
Proof.
  intros Hp Hn t v H. apply promise_all_fulfilled in H as [_ H].
  destruct (H p Hp) as (t' & v' & ? & _). by eapply Hn.
Qed.

Lemma spawn_is_spawn_walks {X : Type}
    (f : string → X → option (list Event * Promise)) vs :
  spawn f vs = spawn_walks f vs.
Proof. reflexivity. Qed.

Section SubWalks.
Context {E X : Type}.
Variable f : string → X → option (list E * Promise).

Lemma spawn_walks_promises vs ps :
  (spawn_walks f vs).2 = Some ps →
  Forall2 (λ kx p, ∃ es, f kx.1 kx.2 = Some (es, p)) vs ps.
Proof.
  revert ps. induction vs as [|[k x] vs IH]; intros ps; simpl.
  - intros [= <-]. constructor.
  - destruct (f k x) as [[e1 p1]|] eqn:Hf; simpl; [|done].
    destruct (spawn_walks f vs) as [e2 ps2]. simpl in *.
    destruct ps2 as [ps2|]; simpl; [|done]. intros [= <-].
    constructor; [simpl; eauto|by apply IH].
Qed.

Lemma spawn_walks_elem vs e :
  e ∈ (spawn_walks f vs).1 →
  ∃ k x es p, (k, x) ∈ vs ∧ f k x = Some (es, p) ∧ e ∈ es
              ∧ ∀ ps, (spawn_walks f vs).2 = Some ps → p ∈ ps.
Proof.
  induction vs as [|[k x] vs IH]; simpl; [by intros ?%elem_of_nil|].
  destruct (f k x) as [[e1 p1]|] eqn:Hf; simpl; [|by intros ?%elem_of_nil].
  destruct (spawn_walks f vs) as [e2 ps2]. simpl in *.
  intros [He|He]%elem_of_app.
  - exists k, x, e1, p1. split; [by left|]. split; [done|]. split; [done|].
    intros ps Hps. destruct ps2; simplify_eq/=. by left.
  - destruct (IH He) as (k' & x' & es & p & Hin & Hf' & He' & Hps).
    exists k', x', es, p. split; [by right|]. split; [done|]. split; [done|].
    intros ps Hps'. destruct ps2 as [ps2|]; simplify_eq/=.
    right. by apply Hps.
Qed.

Lemma spawn_walks_throws vs k x :
  (k, x) ∈ vs → f k x = None → (spawn_walks f vs).2 = None.
Proof.
  induction vs as [|[k' x'] vs IH]; [by intros ?%elem_of_nil|].
  intros [[= <- <-]|Hin]%elem_of_cons Hf; simpl.
  - by rewrite Hf.
  - destruct (f k' x') as [[e1 p1]|]; simpl; [|done].
    specialize (IH Hin Hf). destruct (spawn_walks f vs) as [e2 ps2].
    simpl in *. by subst.
Qed.

End SubWalks.

(** The same three facts for the sub-walks of the view walks. *)
Lemma spawn_promises {X : Type}
    (f : string → X → option (list Event * Promise)) vs ps :
  (spawn f vs).2 = Some ps →
  Forall2 (λ kx p, ∃ es, f kx.1 kx.2 = Some (es, p)) vs ps.
Proof. apply (spawn_walks_promises f). Qed.

Lemma spawn_elem_inv {X : Type}
    (f : string → X → option (list Event * Promise)) vs e :
  e ∈ (spawn f vs).1 →
  ∃ k x es p, (k, x) ∈ vs ∧ f k x = Some (es, p) ∧ e ∈ es
              ∧ ∀ ps, (spawn f vs).2 = Some ps → p ∈ ps.
Proof. apply (spawn_walks_elem f). Qed.

Lemma spawn_throws {X : Type}
    (f : string → X → option (list Event * Promise)) vs k x :
  (k, x) ∈ vs → f k x = None → (spawn f vs).2 = None.
Proof. apply (spawn_walks_throws f). Qed.

(** ** More on the activation walk *)

Section ActivationExtras.
Context `{VL : ViewLayer}.
Implicit Types (h : gmap loc Router) (this : loc) (path : list string).

Lemma unfulfilled_reply now answer :
  ¬ fulfils answer → ∀ t v, promise_of_reply now answer ≠ Some (t, Fulfilled v).
Proof.
  destruct answer as [a|[[d [a|r]]|]]; simpl; intros Hn t v; try done.
  all: by destruct Hn.
Qed.

Lemma activatePorts_paths i : ∀ h this path now e,
  e ∈ (activatePorts h this i path now).1 → ∃ ks, ev_path e = path ++ ks.
Proof.
  induction i as [c vs rt u IH] using Instruction_nested_ind.
  intros h this path now e. rewrite activatePorts_unfold.
  pose proof (queryViewports_local h (activate_fn (mkInstruction c vs rt u))
                this path now e) as Hloc.
  destruct (queryViewports _ _ _ _ _) as [evs p]. cbn [fst snd viewports] in *.
  assert (e ∈ evs → ∃ ks, ev_path e = path ++ ks) as Hl.
  { intros He. destruct (Hloc He) as [-> _]. exists []. by rewrite app_nil_r. }
  destruct p as [[t [v|r]]|]; try done.
  pose proof (spawn_elem_inv
    (λ vp child, rc ← router child;
                 Some (activatePorts h rc child (path ++ [vp]) t)) vs e) as Hs.
  destruct (spawn _ vs) as [evs' ps]. cbn [fst snd] in *.
  intros [He|He]%elem_of_app; [auto|].
  destruct (Hs He) as (k & x & es & p & Hin & Hf & Hes & _).
  destruct (router x) as [rc|]; simplify_eq/=.
  rewrite Forall_forall in IH.
  destruct (IH _ Hin h rc (path ++ [k]) t e) as [ks Hks].
  { simpl. by rewrite Hf. }
  exists (k :: ks). by rewrite Hks, <- app_assoc.
Qed.

(** What a fulfilled activation walk has done, by induction on the
    instruction. *)
Lemma activatePorts_fulfilled i : ∀ h this path now t v,
  (activatePorts h this i path now).2 = Some (t, Fulfilled v) →
  now ≤ t
  ∧ (∀ e, e ∈ (activatePorts h this i path now).1 →
          ∃ t' v', ev_promise e = Some (t', Fulfilled v') ∧ t' ≤ t)
  ∧ (∀ c, c ∈ descendants i → is_Some (router c)).
Proof.
  induction i as [c vs rt u IH] using Instruction_nested_ind.
  intros h this path now t v. rewrite activatePorts_unfold.
  pose proof (queryViewports_fulfilled h (activate_fn (mkInstruction c vs rt u))
                this path now) as Hful.
  pose proof (queryViewports_time h (activate_fn (mkInstruction c vs rt u))
                this path now) as Htime.
  destruct (queryViewports _ _ _ _ _) as [evs p]. cbn [fst snd viewports] in *.
  destruct p as [[t0 [v0|r0]]|]; try done.
  pose proof (spawn_elem_inv
    (λ vp child, rc ← router child;
                 Some (activatePorts h rc child (path ++ [vp]) t0)) vs) as Hs.
  pose proof (spawn_promises
    (λ vp child, rc ← router child;
                 Some (activatePorts h rc child (path ++ [vp]) t0)) vs) as Hps.
  destruct (spawn _ vs) as [evs' ps]. cbn [fst snd] in *.
  destruct ps as [ps|]; simpl; [|done]. intros Hall.
  apply promise_all_fulfilled in Hall as [Ht0 Hall].
  specialize (Htime t0 v0 eq_refl). rewrite Forall_forall in IH.
  split; [lia|]. split.
  - intros e [He|He]%elem_of_app.
    + destruct (Hful t0 v0 e eq_refl He) as (_ & _ & t' & v' & ? & ?).
      exists t', v'. split; [done|lia].
    + destruct (Hs e He) as (k & x & es & p & Hin & Hf & Hes & Hp).
      destruct (router x) as [rc|]; simplify_eq/=.
      destruct (Hall _ (Hp ps eq_refl)) as (t' & v' & Hpe & Hle).
      destruct (IH _ Hin h rc (path ++ [k]) t0 t' v') as (_ & Hev & _).
      { simpl. by rewrite Hf. }
      simpl in Hev. rewrite Hf in Hev.
      destruct (Hev e Hes) as (t'' & v'' & ? & ?).
      exists t'', v''. split; [done|lia].
  - intros d Hd. simpl in Hd. apply list_elem_of_In, in_flat_map in Hd
      as ([k x] & Hin%list_elem_of_In & Hd%list_elem_of_In).
    specialize (Hps ps eq_refl).
    apply list_elem_of_lookup_1 in Hin as Hn. destruct Hn as [n Hn].
    destruct (Forall2_lookup_l _ _ _ _ _ Hps Hn) as (p & Hp & es & Hf).
    simpl in *. destruct (router x) as [rc|] eqn:Hrx; simplify_eq/=.
    apply elem_of_cons in Hd as [->|Hd]; [by rewrite Hrx|].
    assert (p ∈ ps) as Hpin by (apply list_elem_of_lookup; eauto).
    destruct (Hall _ Hpin) as (t' & v' & -> & _).
    destruct (IH _ Hin h rc (path ++ [k]) t0 t' v') as (_ & _ & Hr).
    { simpl. by rewrite Hf. }
    by apply Hr.
Qed.

(** X10: the promise of [activatePorts] is fulfilled only once every
    activation issued anywhere in the walk has been fulfilled, and only if
    every instruction below the root carries a router. *)
Theorem activatePorts_fulfilled_means_all_activated h this i path now t v :
  (activatePorts h this i path now).2 = Some (t, Fulfilled v) →
  now ≤ t
  ∧ (∀ e, e ∈ (activatePorts h this i path now).1 →
          ∃ t' v', ev_promise e = Some (t', Fulfilled v') ∧ t' ≤ t)
  ∧ (∀ c, c ∈ descendants i → is_Some (router c)).
Proof. apply activatePorts_fulfilled. Qed.

(** X11: when the activation of one port of the router is rejected or
    never settles, the other ports of that router are activated all the
    same, but no child instruction is walked: the calls made are exactly
    one per registered port, and the promise is not fulfilled. *)
Theorem activatePorts_stops_at_failed_level h this i path now nm port :
  ports_of h this !! nm = Some port →
  ¬ fulfils (activate port (viewport_get (viewports i) nm) now) →
  (∀ t v, (activatePorts h this i path now).2 ≠ Some (t, Fulfilled v))
  ∧ (∀ e, e ∈ (activatePorts h this i path now).1 ↔
          ∃ nm' port', ports_of h this !! nm' = Some port'
            ∧ e = mkEvent Activate path this nm' port'
                          (viewport_get (viewports i) nm') now
                          (promise_of_reply now
                             (activate port'
                                (viewport_get (viewports i) nm') now))).
Proof.
  intros Hport Hfail.
  assert (∀ t v, (queryViewports h (activate_fn i) this path now).2
                 ≠ Some (t, Fulfilled v)) as Hp.
  { rewrite queryViewports_promise.
    eapply (promise_all_unfulfilled now _
              (promise_of_reply now
                 (activate port (viewport_get (viewports i) nm) now))).
    - apply list_elem_of_fmap. eexists. split; [|apply queryViewports_elem; eauto].
      done.
    - by apply unfulfilled_reply. }
  pose proof (queryViewports_elem h (activate_fn i) this path now) as Hel.
  rewrite activatePorts_unfold.
  destruct (queryViewports h (activate_fn i) this path now) as [evs p].
  cbn [fst snd] in *.
  destruct p as [[t [v|r]]|]; [by destruct (Hp t v)|..]; by split.
Qed.

(** X12: which views the root level of the walk activates is decided by
    the ports registered on the router, not by the viewports of the
    instruction: a call at the level of [this] is a call on a registered
    port, with [instruction.viewports[name]] as argument, which is the
    instruction's own viewport of that name, else the member of
    [Object.prototype] of that name, else undefined; and every call further
    down carries a longer path. *)
Theorem activatePorts_root_level_is_the_ports h this i path now e :
  (e ∈ (activatePorts h this i path now).1 ∧ ev_path e = path) ↔
  ∃ nm port, ports_of h this !! nm = Some port
    ∧ e = mkEvent Activate path this nm port
                  (viewport_get (viewports i) nm) now
                  (promise_of_reply now
                     (activate port (viewport_get (viewports i) nm) now)).
Proof.
  split.
  - intros [He Hpath]. revert He.
    rewrite activatePorts_unfold.
    pose proof (queryViewports_elem h (activate_fn i) this path now e) as Hel.
    destruct (queryViewports h (activate_fn i) this path now) as [evs p].
    cbn [fst snd] in *.
    destruct p as [[t [v|r]]|]; try (intros He; by apply Hel).
    pose proof (spawn_elem_inv
      (λ vp child, rc ← router child;
                   Some (activatePorts h rc child (path ++ [vp]) t))
      (viewports i) e) as Hs.
    destruct (spawn _ _) as [evs' ps]. cbn [fst snd] in *.
    intros [He|He]%elem_of_app; [by apply Hel|]. exfalso.
    destruct (Hs He) as (k & x & es & p & Hin & Hf & Hes & _).
    destruct (router x) as [rc|]; simplify_eq/=.
    destruct (activatePorts_paths x h rc (ev_path e ++ [k]) t e) as [ks Hks].
    { by rewrite Hf. }
    rewrite <- app_assoc in Hks. symmetry in Hks.
    by apply path_extension_ne in Hks.
  - intros (nm & port & Hport & ->). split; [|done].
    apply activatePorts_local, queryViewports_elem. by exists nm, port.
Qed.

(** X13: a child instruction without router.  Once the ports of [this] are
    fulfilled, the [then] callback throws on the first child instruction
    whose [router] is undefined, and the promise of [activatePorts] is
    rejected there and then with that error, whatever the other children
    do. *)
Theorem activatePorts_missing_router h this i path now t v vp child :
  (queryViewports h (activate_fn i) this path now).2 = Some (t, Fulfilled v) →
  (vp, child) ∈ viewports i →
  router child = None →
  (activatePorts h this i path now).2 = Some (t, Rejected TypeError).
Proof.
  intros Hp Hin Hr. rewrite activatePorts_unfold.
  destruct (queryViewports h (activate_fn i) this path now) as [evs p].
  cbn [fst snd] in *. subst p.
  pose proof (spawn_throws
    (λ vp child, rc ← router child;
                 Some (activatePorts h rc child (path ++ [vp]) t))
    (viewports i) vp child Hin) as Hs.
  destruct (spawn _ _) as [evs' ps]. cbn [fst snd] in *.
  rewrite Hs; [done|]. by rewrite Hr.
Qed.

End ActivationExtras.

(** ** More on the guard walk *)

Section GuardExtras.
Context `{VL : ViewLayer}.
Implicit Types (h : gmap loc Router) (this : loc) (path : list string).

(** What a fulfilled walk over the live router tree has done, by induction
    on the fuel. *)
Lemma traversePorts_fulfilled fuel : ∀ h fn this path now evs t v,
  traversePorts fuel h fn this path now = Some (evs, Some (t, Fulfilled v)) →
  now ≤ t
  ∧ (∀ e, e ∈ evs → ∃ t' v', ev_promise e = Some (t', Fulfilled v') ∧ t' ≤ t)
  ∧ (∀ ks c nm port,
       router_at h this ks = Some c → ports_of h c !! nm = Some port →
       ∃ e, e ∈ evs ∧ ev_path e = path ++ ks ∧ ev_router e = c
            ∧ ev_port e = nm ∧ ev_view e = port).
Proof.
  induction fuel as [|fuel IH]; intros h fn this path now evs t v H; [done|].
  apply traversePorts_S in H
    as [(t0 & v0 & subs & Hp & Hsubs & -> & Hall)|(Hn & _ & Hp)];
    [|by destruct (Hn t v)].
  symmetry in Hall. apply promise_all_fulfilled in Hall as [Ht0 Hall].
  pose proof (queryViewports_time _ _ _ _ _ _ _ Hp) as Htime.
  assert (∀ n kc sub, map_to_list (children_of h this) !! n = Some kc →
            subs !! n = Some sub →
            ∃ t' v', sub.2 = Some (t', Fulfilled v') ∧ t' ≤ t
                     ∧ traversePorts fuel h fn kc.2 (path ++ [kc.1]) t0
                       = Some (sub.1, Some (t', Fulfilled v'))) as Hsub.
  { intros n kc [es pc] Hkc Hn.
    pose proof (Forall2_lookup_lr _ _ _ _ _ _ Hsubs Hkc Hn) as Hwalk.
    destruct (Hall pc) as (t' & v' & -> & Hle).
    { apply list_elem_of_fmap. exists (es, pc). split; [done|].
      apply list_elem_of_lookup. eauto. }
    exists t', v'. by repeat split. }
  split; [lia|]. split.
  - intros e [He|He]%elem_of_app.
    + destruct (queryViewports_fulfilled _ _ _ _ _ _ _ _ Hp He)
        as (_ & _ & t' & v' & ? & ?).
      exists t', v'. split; [done|lia].
    + apply list_elem_of_join in He as (es & He & Hes).
      apply list_elem_of_fmap in Hes as ([es' pc] & -> & Hin).
      apply list_elem_of_lookup_1 in Hin as [n Hn].
      destruct (Forall2_lookup_r _ _ _ _ _ Hsubs Hn) as (kc & Hkc & _).
      destruct (Hsub n kc _ Hkc Hn) as (t' & v' & _ & Hle & Hwalk).
      destruct (IH _ _ _ _ _ _ _ _ Hwalk) as (_ & Hev & _).
      destruct (Hev e He) as (t'' & v'' & ? & ?).
      exists t'', v''. split; [done|lia].
  - intros [|k ks] c nm port Hat Hport; simpl in Hat.
    + simplify_eq. eexists. split.
      * apply elem_of_app. left. apply queryViewports_elem. eauto.
      * simpl. by rewrite app_nil_r.
    + destruct (h !! this) as [r|] eqn:Hr; simpl in Hat; [|done].
      destruct (children r !! k) as [c1|] eqn:Hk; simpl in Hat; [|done].
      assert (children_of h this !! k = Some c1) as Hc1
        by (unfold children_of; by rewrite Hr).
      apply elem_of_map_to_list, list_elem_of_lookup_1 in Hc1 as [n Hn].
      destruct (Forall2_lookup_l _ _ _ _ _ Hsubs Hn) as (sub & Hs & _).
      destruct (Hsub n _ sub Hn Hs) as (t' & v' & _ & _ & Hwalk).
      destruct (IH _ _ _ _ _ _ _ _ Hwalk) as (_ & _ & Hcov).
      destruct (Hcov ks c nm port Hat Hport) as (e & He & Hpath & ?).
      exists e. split.
      * apply elem_of_app. right. apply list_elem_of_join. exists sub.1.
        split; [done|]. apply list_elem_of_fmap. exists sub. split; [done|].
        apply list_elem_of_lookup. eauto.
      * by rewrite Hpath, <- app_assoc.
Qed.

Lemma allows_passes now answer :
  allows answer → ∃ t v, boolToPromise now answer = Some (t, Fulfilled v).
Proof.
  destruct answer as [a|[[d [a|r]]|]]; simpl; try done.
  - intros ->. eauto.
  - eauto.
Qed.

(** A walk whose every call is fulfilled is fulfilled. *)
Lemma traversePorts_passes fuel : ∀ h fn this path now evs p,
  (∀ view nm t, ∃ t' v', (fn view nm t).2 = Some (t', Fulfilled v')) →
  traversePorts fuel h fn this path now = Some (evs, p) →
  ∃ t v, p = Some (t, Fulfilled v).
Proof.
  induction fuel as [|fuel IH]; intros h fn this path now evs p Hfn H; [done|].
  assert (∃ t v, (queryViewports h fn this path now).2 = Some (t, Fulfilled v))
    as (t0 & v0 & Hloc).
  { rewrite queryViewports_promise. apply promise_all_of_fulfilled.
    apply Forall_forall. intros q Hq.
    apply list_elem_of_fmap in Hq as (e & -> & He).
    apply queryViewports_elem in He as (nm & port & _ & ->). simpl.
    apply Hfn. }
  apply traversePorts_S in H
    as [(t & v & subs & Hp & Hsubs & _ & ->)|(Hn & _ & _)];
    [|by destruct (Hn t0 v0)].
  apply promise_all_of_fulfilled, Forall_forall. intros q Hq.
  apply list_elem_of_fmap in Hq as ([es pc] & -> & Hin).
  apply list_elem_of_lookup_1 in Hin as [n Hn].
  destruct (Forall2_lookup_r _ _ _ _ _ Hsubs Hn) as (kc & _ & Hwalk).
  by eapply IH.
Qed.

End GuardExtras.

Section GuardWalkExtras.
Context {G : Type} `{Gr : Grammar G} `{VL : ViewLayer}.

(** X14: when the promise of [canDeactivatePorts] is fulfilled, every view
    registered on the router or on any router below it in the live router
    tree has been asked, and every answer was fulfilled by then. *)
Theorem canDeactivatePorts_fulfilled_asked_everyone (gs : gref → G) ops this
    instruction now fuel :
  next_loc (run (empty_world gs) ops) < fuel →
  ∃ evs p,
    canDeactivatePorts fuel (heap (run (empty_world gs) ops)) this
                       instruction now = Some (evs, p)
    ∧ ∀ t v, p = Some (t, Fulfilled v) →
        (∀ e, e ∈ evs →
              ∃ t' v', ev_promise e = Some (t', Fulfilled v') ∧ t' ≤ t)
        ∧ (∀ ks c nm port,
             router_at (heap (run (empty_world gs) ops)) this ks = Some c →
             ports_of (heap (run (empty_world gs) ops)) c !! nm = Some port →
             ∃ e, e ∈ evs ∧ ev_path e = ks ∧ ev_router e = c
                  ∧ ev_port e = nm ∧ ev_view e = port
                  ∧ ev_cap e = CanDeactivate).
Proof.
  intros Hfuel. set (w := run (empty_world gs) ops) in *.
  pose proof (tree_shaped_run gs ops) as Hw. fold w in Hw.
  destruct (traversePorts_total w (canDeactivate_fn instruction) Hw
              fuel this [] now) as [[evs p] Hrun]; [lia|].
  exists evs, p. split; [exact Hrun|]. intros t v ->.
  destruct (traversePorts_fulfilled _ _ _ _ _ _ _ _ _ Hrun) as (_ & Hev & Hcov).
  split; [exact Hev|]. intros ks c nm port Hat Hport.
  destruct (Hcov ks c nm port Hat Hport) as (e & He & ? & ? & ? & ?).
  exists e. repeat split; try done.
  destruct (traversePorts_calls _ _ _ _ _ _ _ _ Hrun e He)
    as (_ & _ & _ & _ & Hfn).
  unfold canDeactivate_fn in Hfn. by injection Hfn.
Qed.

(** X15: [boolToPromise] looks at the answer itself, not at what a promise
    is fulfilled with.  If every view answers [canDeactivate] with a truthy
    value or with a promise that is fulfilled, be it fulfilled with [false],
    the guard walk is fulfilled: only a falsy plain answer or a rejected
    promise vetoes. *)
Theorem canDeactivatePorts_ignores_promised_value (gs : gref → G) ops this
    instruction now fuel :
  (∀ view arg t, allows (canDeactivate view arg t)) →
  next_loc (run (empty_world gs) ops) < fuel →
  ∃ evs t v,
    canDeactivatePorts fuel (heap (run (empty_world gs) ops)) this
                       instruction now = Some (evs, Some (t, Fulfilled v)).
Proof.
  intros Hallow Hfuel. set (w := run (empty_world gs) ops) in *.
  pose proof (tree_shaped_run gs ops) as Hw. fold w in Hw.
  destruct (traversePorts_total w (canDeactivate_fn instruction) Hw
              fuel this [] now) as [[evs p] Hrun]; [lia|].
  assert (∀ view nm t, ∃ t' v',
            (canDeactivate_fn instruction view nm t).2
            = Some (t', Fulfilled v')) as Hfn.
  { intros view nm t. unfold canDeactivate_fn. simpl.
    apply allows_passes, Hallow. }
  destruct (traversePorts_passes _ _ _ _ _ _ _ _ Hfn Hrun) as (t & v & ->).
  by exists evs, t, v.
Qed.

End GuardWalkExtras.

(** ** The guard walk, as the code has it *)

Section GuardWalk.
Context {G : Type} `{Gr : Grammar G} `{VL : ViewLayer}.



End GuardWalk.




(** ** The generic instruction walk *)

Lemma first_rejection_same ps t r :
  Forall (λ p, p = Some (t, Rejected r)) ps → ps ≠ [] →
  first_rejection ps = Some (t, r).
Proof.
  induction 1 as [|p ps -> _ IH]; [done|]. intros _. simpl.
  destruct ps as [|q ps]; [done|].
  rewrite IH by done. by rewrite Nat.ltb_irrefl.
Qed.

Lemma spawn_walks_total {E X : Type}
    (f : string → X → option (list E * Promise)) vs :
  Forall (λ kx, is_Some (f kx.1 kx.2)) vs →
  ∃ rs, Forall2 (λ kx r, f kx.1 kx.2 = Some r) vs rs
        ∧ spawn_walks f vs = (mjoin rs.*1, Some rs.*2).
Proof.
  induction 1 as [|[k x] vs [[es p] Hf] _ (rs & H2 & Hs)]; simpl in *.
  - exists []. split; [constructor|done].
  - exists ((es, p) :: rs). split; [by constructor|].
    by rewrite Hf, Hs.
Qed.

Lemma descendants_by_level (vs : list (string * Instruction))
    (rs : list (list Visit * Promise)) :
  Forall2 (λ kc r, vi_child <$> r.1 ≡ₚ descendants kc.2) vs rs →
  vs.*2 ++ (vi_child <$> mjoin rs.*1)
  ≡ₚ flat_map (λ kc, kc.2 :: descendants kc.2) vs.
Proof.
  induction 1 as [|[k x] [es p] vs rs Hx _ IH]; simpl in *; [done|].
  constructor. rewrite fmap_app, Hx, <- IH.
  apply Permutation_app_swap_app.
Qed.

Section TraverseFacts.
Variable fn : Instruction → string → nat → Reply.

Lemma traverseInstructionFrom_unfold i path now :
  traverseInstructionFrom fn i path now =
  let '(visits, p) := visitViewports fn i path now in
  match p with
  | Some (t, Fulfilled _) =>
      let '(visits', ps) :=
        spawn_walks (λ vp child,
                       _ ← router child;
                       Some (traverseInstructionFrom fn child (path ++ [vp]) t))
                    (viewports i) in
      (visits ++ visits', spawned_all t ps)
  | _ => (visits, p)
  end.
Proof. by destruct i. Qed.

(** X16: a callback that returns nothing.  When [fn] hands back a falsy
    value for every child (the value of a function without [return], for
    one), [traverseInstruction] calls it on each viewport of the
    instruction, once, and is rejected at once; no instruction further down
    is ever visited. *)
Theorem traverseInstruction_needs_truthy_callback i now :
  (∀ child vp t, ∃ v, fn child vp t = RValue v ∧ truthy v = false) →
  viewports i ≠ [] →
  traverseInstruction fn (Some i) now
  = ((λ '(vp, child), mkVisit [] vp child now (Some (now, Rejected VUndefined)))
       <$> viewports i,
     Some (now, Rejected VUndefined)).
Proof.
  intros Hfn Hne. unfold traverseInstruction.
  rewrite traverseInstructionFrom_unfold. unfold visitViewports.
  assert ((λ '(vp, child),
             mkVisit [] vp child now (boolToPromise now (fn child vp now)))
            <$> viewports i
          = (λ '(vp, child),
               mkVisit [] vp child now (Some (now, Rejected VUndefined)))
              <$> viewports i) as ->.
  { apply list_fmap_ext. intros n [vp child] _.
    destruct (Hfn child vp now) as (v & -> & Hv). simpl. by rewrite Hv. }
  assert (promise_all now
            (vi_promise <$>
               ((λ '(vp, child),
                   mkVisit [] vp child now (Some (now, Rejected VUndefined)))
                  <$> viewports i))
          = Some (now, Rejected VUndefined)) as ->; [|done].
  unfold promise_all. erewrite first_rejection_same; [done| |].
  - apply Forall_forall. intros p Hp.
    apply list_elem_of_fmap in Hp as (e & -> & He).
    by apply list_elem_of_fmap in He as ([vp child] & -> & _).
  - destruct (viewports i); [done|]. done.
Qed.

(** A walk whose callback always lets pass, over an instruction tree whose
    instructions all carry a router. *)
Lemma traverseInstructionFrom_complete i :
  (∀ child vp t, allows (fn child vp t)) →
  (∀ c, c ∈ descendants i → is_Some (router c)) →
  ∀ path now,
    ∃ t v, (traverseInstructionFrom fn i path now).2 = Some (t, Fulfilled v)
           ∧ vi_child <$> (traverseInstructionFrom fn i path now).1
             ≡ₚ descendants i.
Proof.
  intros Hfn. induction i as [c vs rt u IH] using Instruction_nested_ind.
  intros Hr path now. rewrite traverseInstructionFrom_unfold.
  unfold visitViewports. cbn [viewports].
  set (visits := (λ '(vp, child),
                    mkVisit path vp child now
                            (boolToPromise now (fn child vp now))) <$> vs).
  destruct (promise_all_of_fulfilled now (vi_promise <$> visits))
    as (t0 & v0 & Hp).
  { apply Forall_forall. intros p Hp.
    apply list_elem_of_fmap in Hp as (e & -> & He).
    apply list_elem_of_fmap in He as ([vp child] & -> & _). simpl.
    by apply allows_passes. }
  rewrite Hp.
  destruct (spawn_walks_total
    (λ vp child, _ ← router child;
                 Some (traverseInstructionFrom fn child (path ++ [vp]) t0)) vs)
    as (rs & H2 & ->).
  { apply Forall_forall. intros [k x] Hin. simpl.
    destruct (Hr x) as [rx ->]; [|simpl; eauto].
    simpl. apply list_elem_of_In, in_flat_map. exists (k, x).
    split; [by apply list_elem_of_In|]. by left. }
  cbn [fst snd spawned_all].
  assert (Forall2 (λ kc r, (∃ t v, r.2 = Some (t, Fulfilled v))
                           ∧ vi_child <$> r.1 ≡ₚ descendants kc.2) vs rs) as H3.
  { clear Hp. revert rs H2 Hr.
    induction IH as [|[k x] vs' Hx _ IHvs]; intros rs H2 Hr.
    - apply Forall2_nil_inv_l in H2 as ->. constructor.
    - apply Forall2_cons_inv_l in H2 as (r & rs' & Hf & H2 & ->).
      simpl in Hf.
      assert (∀ d, d ∈ descendants x ∨ d = x ∨
                   d ∈ flat_map (λ kc, kc.2 :: descendants kc.2) vs' →
                   is_Some (router d)) as Hr'.
      { intros d Hd. apply Hr. simpl.
        destruct Hd as [Hd|[->|Hd]]; [|by left|].
        - right. apply elem_of_app. by left.
        - right. apply elem_of_app. by right. }
      destruct (router x) as [rx|]; simplify_eq/=.
      constructor.
      + simpl. destruct (Hx (λ d Hd, Hr' d (or_introl Hd)) (path ++ [k]) t0)
          as (t & v & ? & ?). split; [eauto|done].
      + apply IHvs; [done|]. intros d Hd. apply Hr'. by right; right. }
  destruct (promise_all_of_fulfilled t0 rs.*2) as (t & v & Hall).
  { apply Forall_forall. intros p Hin.
    apply list_elem_of_fmap in Hin as (r & -> & Hin).
    apply list_elem_of_lookup_1 in Hin as [n Hn].
    destruct (Forall2_lookup_r _ _ _ _ _ H3 Hn) as (kc & _ & Hok & _). done. }
  exists t, v. split; [done|].
  rewrite fmap_app.
  assert (vi_child <$> visits = vs.*2) as ->.
  { unfold visits. rewrite <- list_fmap_compose. apply list_fmap_ext.
    by intros n [vp child] _. }
  simpl. apply descendants_by_level.
  eapply Forall2_impl; [exact H3|]. by intros ?? [_ ?].
Qed.

(** X17: with a callback that lets every child pass and an instruction
    tree in which every instruction below the root carries a router,
    [traverseInstruction] is fulfilled and has called the callback exactly
    once on each instruction below the root, at every depth. *)
Theorem traverseInstruction_visits_every_instruction i now :
  (∀ child vp t, allows (fn child vp t)) →
  forallb (λ c, bool_decide (is_Some (router c))) (descendants i) = true →
  ∃ t v, (traverseInstruction fn (Some i) now).2 = Some (t, Fulfilled v)
         ∧ vi_child <$> (traverseInstruction fn (Some i) now).1
           ≡ₚ descendants i.
Proof.
  intros Hfn Hr. apply traverseInstructionFrom_complete; [done|].
  intros c Hc. rewrite forallb_forall in Hr.
  apply list_elem_of_In, Hr in Hc. by apply bool_decide_eq_true_1 in Hc.
Qed.

End TraverseFacts.

(** ** The further statements at the worked examples *)

(** The navigation of the welcome page to [/], fulfilled. *)
Lemma navigate_completes_witness :
  ∃ w1 w2,
    navigate app_start 0 "/" = Some (w1, AwaitsPipeline 0 welcome_at_root)
    ∧ navigate_settle w1 0 welcome_at_root (Fulfilled VUndefined)
      = Some (w2, Fulfilled (VStr "/welcome")).
Proof.
  destruct (navigate_completes app_start 0
              (mkRouter "/" None false ∅ ∅ 0 0 None None None) "/" welcome
              VUndefined)
    as (w1 & w2 & H1 & _ & _ & H2 & _).
  - vm_compute. reflexivity.
  - reflexivity.
  - discriminate.
  - vm_compute. reflexivity.
  - exists w1, w2. split; [exact H1|exact H2].
Defined.

(** [/] redirects to [/welcome]: going to [/] again is a new navigation. *)
Lemma navigate_again_witness :
  ∃ w1 w2 w3,
    navigate app_start 0 "/" = Some (w1, AwaitsPipeline 0 welcome_at_root)
    ∧ navigate_settle w1 0 welcome_at_root (Fulfilled VUndefined)
      = Some (w2, Fulfilled (VStr "/welcome"))
    ∧ navigate w2 0 "/welcome" = Some (w2, Settled (Fulfilled VUndefined))
    ∧ navigate w2 0 "/" = Some (w3, AwaitsPipeline 0 welcome_at_root).
Proof.
  destruct (navigate_again app_start 0
              (mkRouter "/" None false ∅ ∅ 0 0 None None None) "/" welcome
              VUndefined)
    as (w1 & w2 & H1 & H2 & H3 & H4).
  - vm_compute. reflexivity.
  - reflexivity.
  - discriminate.
  - vm_compute. reflexivity.
  - destruct H4 as (w3 & H4 & _); [discriminate|].
    exists w1, w2, w3. split; [exact H1|]. split; [exact H2|].
    split; [exact H3|exact H4].
Defined.

(** The root router and its child navigating at the same time. *)
Lemma navigating_is_per_router_witness :
  ∃ w1 w2,
    navigate app_nested 0 "/" = Some (w1, AwaitsPipeline 0 welcome_at_root)
    ∧ navigate w1 1 "/welcome"
      = Some (w2, AwaitsPipeline 0 (set_router (Some 1) welcome))
    ∧ navigating <$> heap w2 !! 0 = Some true
    ∧ navigating <$> heap w2 !! 1 = Some true.
Proof.
  destruct (navigating_is_per_router app_nested 0 1
              (mkRouter "/" None false ∅ {[ "welcome" := 1 ]} 0 0 None None None)
              (mkRouter "welcome" (Some 0) false ∅ ∅ 0 0 None None None)
              "/" "/welcome" welcome welcome)
    as (w1 & w2 & H1 & H2 & H3 & H4 & _).
  - discriminate.
  - vm_compute. reflexivity.
  - vm_compute. reflexivity.
  - reflexivity.
  - reflexivity.
  - discriminate.
  - discriminate.
  - vm_compute. reflexivity.
  - vm_compute. reflexivity.
  - exists w1, w2. split; [exact H1|]. split; [exact H2|].
    split; [by rewrite H3|by rewrite H4].
Defined.

(** A view registered on the welcome page once it has arrived. *)
Lemma registerViewport_registers_witness :
  ∃ w' r', registerViewport app_arrived 0 7 None
           = Some (w', Settled (Fulfilled VUndefined))
           ∧ heap w' !! 0 = Some r' ∧ ports r' !! "default" = Some 7.
Proof.
  destruct (registerViewport_registers (λ _ : nat, app_routes)
              [OpNewRootRouter 0 0; OpNavigate 0 "/";
               OpSettle 0 welcome_at_root (Fulfilled VUndefined)]
              0 (mkRouter "/" None false ∅ ∅ 0 0 (Some "/welcome") None None)
              7 None)
    as (w' & r' & H1 & H2 & _ & _ & H3 & _).
  - vm_compute. reflexivity.
  - exists w', r'. split; [exact H1|]. split.
    + rewrite H2. apply lookup_insert_eq.
    + destruct H3 as (_ & H3 & _); [discriminate|exact H3].
Defined.

(** The route table of the welcome page replaced by an empty one, through
    the child router. *)
Lemma config_reconfigures_shared_grammar_witness :
  ∃ w', config app_nested 1 ([] : RouteTable)
        = Some (w', Settled (Fulfilled VUndefined))
        ∧ heap w' = heap app_nested
        ∧ log w' = CConfig 0 "welcome" ([] : RouteTable) :: log app_nested.
Proof.
  destruct (@config_reconfigures_shared_grammar RouteTable TableGrammar
              (λ _ : nat, app_routes)
              [OpNewRootRouter 0 0; OpChildRouter 0 (Some "welcome")]
              1 (mkRouter "welcome" (Some 0) false ∅ ∅ 0 0 None None None)
              ([] : RouteTable))
    as (w' & H1 & H2 & H3 & _).
  - vm_compute. reflexivity.
  - exists w'. split; [exact H1|]. split; [exact H2|exact H3].
Defined.

(** The [profile] router of the dashboard under the [users] router. *)
Lemma parent_and_children_agree_witness :
  childRouter dash_built 1 (Some "profile") = Some (dash_built, Stored 3).
Proof.
  assert (∃ rc, heap dash_built !! 3 = Some rc ∧ parent rc = Some 1
                ∧ name rc = "profile") as (rc & Hrc & Hp & Hn).
  { eexists. split; [vm_compute; reflexivity|]. split; reflexivity. }
  pose proof (parent_and_children_agree (λ _ : nat, dash_routes) dash_ops 3 rc
                Hrc) as H.
  rewrite Hp, Hn in H. exact (proj1 H).
Defined.

(** The [profile] router of the dashboard, two levels below the root. *)
Lemma descendants_share_collaborators_witness :
  ∃ rc, heap dash_built !! 3 = Some rc ∧ registry rc = 0 ∧ pipeline rc = 0.
Proof.
  assert (∃ r, heap dash_built !! 0 = Some r ∧ registry r = 0 ∧ pipeline r = 0)
    as (r & Hr & Hg & Hp).
  { eexists. split; [vm_compute; reflexivity|]. split; reflexivity. }
  destruct (descendants_share_collaborators (λ _ : nat, dash_routes) dash_ops
              0 r ["users"; "profile"] 3 Hr)
    as (rc & Hrc & Hg' & Hp' & _).
  - vm_compute. reflexivity.
  - exists rc. split; [exact Hrc|]. split; congruence.
Defined.

(** The routers of the two sibling viewports, built once. *)
Lemma makeDescendantRouters_reuses_witness :
  ∃ w' i', makeDescendantRouters siblings_start siblings = Some (w', i')
           ∧ makeDescendantRouters w' i' = Some (w', i')
           ∧ makeDescendantRouters w' siblings = Some (w', i').
Proof.
  apply (makeDescendantRouters_reuses
           (λ _ : nat, [("/users/posts", siblings)]) [OpNewRootRouter 0 0]
           siblings siblings 0 (mkRouter "/" None false ∅ ∅ 0 0 None None None)).
  - reflexivity.
  - vm_compute. reflexivity.
  - vm_compute. reflexivity.
  - reflexivity.
  - reflexivity.
Defined.

(** The two sibling viewports show different components. *)
Lemma siblings_share_router_by_component_witness :
  ∃ w' i', makeDescendantRouters siblings_start siblings = Some (w', i')
           ∧ ∀ v1 c1 v2 c2,
               (v1, c1) ∈ viewports i' → (v2, c2) ∈ viewports i' →
               (router c1 = router c2 ↔ component c1 = component c2).
Proof.
  destruct (siblings_share_router_by_component
              (λ _ : nat, [("/users/posts", siblings)]) [OpNewRootRouter 0 0]
              siblings 0 (mkRouter "/" None false ∅ ∅ 0 0 None None None))
    as (w' & i' & H1 & H2).
  - reflexivity.
  - vm_compute. reflexivity.
  - vm_compute. reflexivity.
  - exists w', i'. split; [exact H1|]. intros v1 c1 v2 c2 Hc1 Hc2.
    exact (proj2 (H2 i' (or_introl eq_refl) v1 c1 v2 c2 Hc1 Hc2)).
Defined.

(** The activation of the dashboard, fulfilled at time 12. *)
Lemma activatePorts_fulfilled_means_all_activated_witness :
  (∃ v, (activatePorts (heap dash_built) 0 dashboard_routed [] 0).2
        = Some (12, Fulfilled v))
  ∧ ∀ e, e ∈ dash_events →
         ∃ t' v', ev_promise e = Some (t', Fulfilled v') ∧ t' ≤ 12.
Proof.
  assert (∃ v, (activatePorts (heap dash_built) 0 dashboard_routed [] 0).2
               = Some (12, Fulfilled v)) as [v Hv]
    by (eexists; vm_compute; reflexivity).
  split; [by exists v|].
  exact (proj1 (proj2
           (activatePorts_fulfilled_means_all_activated (heap dash_built) 0
              dashboard_routed [] 0 12 v Hv))).
Defined.

(** The [users] router of the guarded dashboard with views one of which
    refuses its activation. *)
Lemma activatePorts_stops_at_failed_level_witness :
  ports_of (heap dash_guarded) 1 !! "guard" = Some 0
  ∧ ∀ t v,
      (@activatePorts MoodyViews (heap dash_guarded) 1 dashboard ["left"] 1).2
      ≠ Some (t, Fulfilled v).
Proof.
  assert (ports_of (heap dash_guarded) 1 !! "guard" = Some 0) as Hport
    by (vm_compute; reflexivity).
  split; [exact Hport|].
  refine (proj1 (@activatePorts_stops_at_failed_level MoodyViews
                   (heap dash_guarded) 1 dashboard ["left"] 1 "guard" 0
                   Hport _)).
  simpl. intros [].
Defined.

(** The dashboard activated before its routers have been assigned. *)
Lemma activatePorts_missing_router_witness :
  (activatePorts (heap dash_built) 0 dashboard_at_root [] 0).2
  = Some (1, Rejected TypeError).
Proof.
  assert (∃ v, (queryViewports (heap dash_built) (activate_fn dashboard_at_root)
                               0 [] 0).2 = Some (1, Fulfilled v)) as [v Hv]
    by (eexists; vm_compute; reflexivity).
  refine (activatePorts_missing_router (heap dash_built) 0 dashboard_at_root
            [] 0 1 v "left" _ Hv _ _).
  - left.
  - reflexivity.
Defined.

(** The guard walk over the dashboard. *)
Lemma canDeactivatePorts_fulfilled_asked_everyone_witness :
  ∃ evs p, canDeactivatePorts 9 (heap dash_built) 0 dashboard 0 = Some (evs, p)
           ∧ ∀ t v, p = Some (t, Fulfilled v) →
               ∀ e, e ∈ evs →
                    ∃ t' v', ev_promise e = Some (t', Fulfilled v') ∧ t' ≤ t.
Proof.
  assert (next_loc dash_built < 9) as Hfuel by (vm_compute; lia).
  destruct (canDeactivatePorts_fulfilled_asked_everyone
              (λ _ : nat, dash_routes) dash_ops 0 dashboard 0 9 Hfuel)
    as (evs & p & Hrun & Hall).
  exists evs, p. split; [exact Hrun|].
  intros t v Hp. exact (proj1 (Hall t v Hp)).
Defined.

(** The guard walk over the guarded dashboard, every view answering with a
    promise of [false]. *)
Lemma canDeactivatePorts_ignores_promised_value_witness :
  ∃ evs t v,
    @canDeactivatePorts PromiseOfFalseViews 9 (heap dash_guarded) 0 dashboard 0
    = Some (evs, Some (t, Fulfilled v)).
Proof.
  assert (next_loc dash_guarded < 9) as Hfuel by (vm_compute; lia).
  refine (@canDeactivatePorts_ignores_promised_value _ _ PromiseOfFalseViews
            (λ _ : nat, dash_routes) dash_guarded_ops 0 dashboard 0 9 _ Hfuel).
  intros view arg t. exact I.
Defined.

(** The dashboard walked with a callback that returns nothing. *)
Lemma traverseInstruction_needs_truthy_callback_witness :
  (traverseInstruction (λ _ _ _, RValue VUndefined) (Some dashboard) 0).2
  = Some (0, Rejected VUndefined).
Proof.
  rewrite (traverseInstruction_needs_truthy_callback
             (λ _ _ _, RValue VUndefined) dashboard 0).
  - reflexivity.
  - intros child vp t. exists VUndefined. split; reflexivity.
  - discriminate.
Defined.

(** The dashboard walked with a callback that returns [true]. *)
Lemma traverseInstruction_visits_every_instruction_witness :
  ∃ t v, (traverseInstruction (λ _ _ _, RValue (VBool true))
                              (Some dashboard_routed) 0).2
         = Some (t, Fulfilled v)
         ∧ vi_child <$> (traverseInstruction (λ _ _ _, RValue (VBool true))
                                             (Some dashboard_routed) 0).1
           ≡ₚ descendants dashboard_routed.
Proof.
  apply (traverseInstruction_visits_every_instruction
           (λ _ _ _, RValue (VBool true)) dashboard_routed 0).
  - intros child vp t. reflexivity.
  - vm_compute. reflexivity.
Defined.

(** The view registered under [constructor] on the welcome page is
    activated at the root level, with the member of [Object.prototype] of
    that name as argument; the view registered under [__proto__] is no
    port. *)
Lemma activatePorts_root_level_is_the_ports_witness :
  ports_of (heap app_odd_ports) 0 = {[ "constructor" := 1 ]}
  ∧ ∃ e, e ∈ (activatePorts (heap app_odd_ports) 0 welcome [] 0).1
         ∧ ev_path e = [] ∧ ev_port e = "constructor" ∧ ev_view e = 1
         ∧ ev_arg e = Inherited "constructor".
Proof.
  split; [vm_compute; reflexivity|].
  eexists. split; [|split; [|split; [|split]]].
  - refine (proj1 (proj2 (activatePorts_root_level_is_the_ports
                            (heap app_odd_ports) 0 welcome [] 0 _) _)).
    exists "constructor", 1. split; [vm_compute; reflexivity|reflexivity].
  - reflexivity.
  - reflexivity.
  - reflexivity.
  - vm_compute. reflexivity.
Defined.
